(** * verzettler: notes, the note collection and the rewrite pipeline

    A shallow embedding of [verzettler/zettel.py], [verzettler/zettelkasten.py]
    and [verzettler/note_transformer.py].

    Conventions of the embedding
    - Python [str] is [string]; a character is a code point below 256.
    - Python [set] of [str] is [gset string].
    - The dict [zid2zettel] is a [gmap string Zettel] together with the list
      of its keys in insertion order (Python dicts iterate in that order).
    - An attribute that [Zettel.__init__] never assigns is [Absent] until some
      code binds it; reading an [Absent] attribute raises [AttributeError].
    - The logger is an explicit list of emitted messages.
    - The call stack is finite: the one recursive method, [_update_depths],
      is given the number of its own calls the stack has room for, and a
      call beyond that raises [RecursionError]. The other calls, those of
      the logger among them, are taken to find room wherever a call of the
      method does. *)

From Stdlib Require Import Ascii.
From Stdlib Require String.
From stdpp Require Import base gmap sets list strings sorting.
From stdpp Require Import pretty.

Set Default Proof Using "Type".
Set Warnings "-clear-no-such-hyp".

(** ** Python string primitives *)

Module Py.

Definition nl : string := String "010"%char EmptyString.
Definition dq : string := String "034"%char EmptyString.

Definition code (c : ascii) : nat := nat_of_ascii c.

(** [str.isspace] for one character, which is also the class [\s] of the
    [re] module on [str] patterns. *)
Definition isspace (c : ascii) : bool :=
  let n := code c in
  ((9 <=? n) && (n <=? 13)) || ((28 <=? n) && (n <=? 32))
  || (n =? 133) || (n =? 160).

Definition isdigit (c : ascii) : bool :=
  let n := code c in (48 <=? n) && (n <=? 57).

Definition lower_char (c : ascii) : ascii :=
  let n := code c in
  if ((65 <=? n) && (n <=? 90))
     || ((192 <=? n) && (n <=? 222) && negb (n =? 215))
  then ascii_of_nat (n + 32) else c.

Fixpoint lower (s : string) : string :=
  match s with
  | EmptyString => EmptyString
  | String c r => String (lower_char c) (lower r)
  end.

Definition startswith (s p : string) : bool := String.prefix p s.

(** [sub in s] *)
Fixpoint contains (sub s : string) : bool :=
  String.prefix sub s ||
  match s with
  | EmptyString => false
  | String _ r => contains sub r
  end.

Fixpoint endswith_nl (s : string) : bool :=
  match s with
  | EmptyString => false
  | String c EmptyString => Ascii.eqb c "010"
  | String _ r => endswith_nl r
  end.

Fixpoint lstrip (s : string) : string :=
  match s with
  | EmptyString => EmptyString
  | String c r => if isspace c then lstrip r else s
  end.

Fixpoint rstrip (s : string) : string :=
  match s with
  | EmptyString => EmptyString
  | String c r =>
      match rstrip r with
      | EmptyString => if isspace c then EmptyString else String c EmptyString
      | r' => String c r'
      end
  end.

Definition strip (s : string) : string := rstrip (lstrip s).

(** Truth value of a [str]: non-empty. *)
Definition truthy (s : string) : bool :=
  match s with EmptyString => false | _ => true end.

Definition snoc (s : string) (c : ascii) : string :=
  s +:+ String c EmptyString.

(** [s.split(sep)] for a non-empty separator: [skip] counts the characters
    of a separator occurrence still to be passed over, [cur] is the piece
    being collected. *)
Fixpoint split_go (sep : string) (skip : nat) (cur s : string) : list string :=
  match s with
  | EmptyString => [cur]
  | String c r =>
      match skip with
      | S k => split_go sep k cur r
      | O =>
          if String.prefix sep s
          then cur :: split_go sep (String.length sep - 1) EmptyString r
          else split_go sep 0 (snoc cur c) r
      end
  end.

Definition split (s sep : string) : list string :=
  split_go sep 0 EmptyString s.

(** [s.splitlines(keepends=True)] as [readlines] sees a file opened in text
    mode, where every line ending has already been translated to LF. *)
Fixpoint lines_go (cur s : string) : list string :=
  match s with
  | EmptyString => if truthy cur then [cur] else []
  | String c r =>
      if Ascii.eqb c "010" then snoc cur c :: lines_go EmptyString r
      else lines_go (snoc cur c) r
  end.

Definition readlines (content : string) : list string :=
  lines_go EmptyString content.

(** [sep.join(l)] *)
Fixpoint join (sep : string) (l : list string) : string :=
  match l with
  | [] => EmptyString
  | [x] => x
  | x :: r => x +:+ sep +:+ join sep r
  end.

(** [s.replace(old, new)] for a non-empty [old]. *)
Fixpoint replace_go (old new : string) (skip : nat) (s : string) : string :=
  match s with
  | EmptyString => EmptyString
  | String c r =>
      match skip with
      | S k => replace_go old new k r
      | O =>
          if String.prefix old s
          then new +:+ replace_go old new (String.length old - 1) r
          else String c (replace_go old new 0 r)
      end
  end.

(** With an empty [old], Python puts [new] before every character and at
    the end. *)
Fixpoint intersperse (new s : string) : string :=
  match s with
  | EmptyString => new
  | String c r => new +:+ String c (intersperse new r)
  end.

Definition replace (s old new : string) : string :=
  match old with
  | EmptyString => intersperse new s
  | _ => replace_go old new 0 s
  end.

(** [sorted(list(tags))] for a set of strings; [String.le] is the
    lexicographic order on code points. *)
Definition sorted (tags : gset string) : list string :=
  merge_sort String.le (elements tags).

Fixpoint has_space (s : string) : bool :=
  match s with
  | EmptyString => false
  | String c r => isspace c || has_space r
  end.

Fixpoint has_newline (s : string) : bool :=
  match s with
  | EmptyString => false
  | String c r => Ascii.eqb c "010" || has_newline r
  end.

End Py.

(** ** zettel.py *)

(** An attribute of a Python object: bound to a value, or never assigned. *)
Inductive attr (A : Type) : Type :=
| Absent
| Bound (a : A).
Arguments Absent {A}.
Arguments Bound {A} a.

#[global] Instance attr_eq_dec {A} `{EqDecision A} : EqDecision (attr A).
Proof. solve_decision. Defined.

(** [id_regex = re.compile("[0-9]{14}")], used through [findall]: leftmost
    non-overlapping runs of exactly fourteen digits. [cur] holds the digits
    matched so far at the current start position. A failed attempt inside a
    run of digits cannot succeed one position later either, so the scan
    restarts after the offending character. *)
Fixpoint id_findall_go (cur : string) (s : string) : list string :=
  match s with
  | EmptyString => []
  | String c r =>
      if Py.isdigit c then
        let cur' := Py.snoc cur c in
        if String.length cur' =? 14 then cur' :: id_findall_go EmptyString r
        else id_findall_go cur' r
      else id_findall_go EmptyString r
  end.

Definition id_findall (s : string) : list string :=
  id_findall_go EmptyString s.

(** [tag_regex = re.compile(r"#\S*")], used through [findall]: a hash sign
    and the longest run of non-space characters after it. [cur] is the match
    in progress, if any. *)
Fixpoint tag_findall_go (cur : option string) (s : string) : list string :=
  match s with
  | EmptyString => match cur with Some t => [t] | None => [] end
  | String c r =>
      match cur with
      | Some t =>
          if Py.isspace c then t :: tag_findall_go None r
          else tag_findall_go (Some (Py.snoc t c)) r
      | None =>
          if Ascii.eqb c "#" then tag_findall_go (Some "#") r
          else tag_findall_go None r
      end
  end.

Definition tag_findall (s : string) : list string :=
  tag_findall_go None s.

(** [t[1:]] *)
Definition drop1 (t : string) : string :=
  match t with
  | EmptyString => EmptyString
  | String _ r => r
  end.

Record Zettel : Type := mkZettel {
  path : string;
  zid : string;
  links : list string;
  title : string;
  tags : gset string;
  backlinks : gset string;
  depth : attr (option nat)
}.

(** [Zettel.get_zid], on the final component of the path. *)
Definition get_zid (name : string) : string :=
  match id_findall name with
  | m :: _ => m
  | [] => name
  end.

(** [set(t[1:] for t in set(self.tag_regex.findall(line)))] *)
Definition read_tags (line : string) : gset string :=
  list_to_set (drop1 <$> tag_findall line).

(** The heading text [analyze_file] takes from a line that starts with the
    marker: [line.split("# ")[1].strip()]. *)
Definition heading_text (line : string) : string :=
  Py.strip (default EmptyString (Py.split line "# " !! 1)).

(** One iteration of the loop of [analyze_file]. *)
Definition analyze_line (z : Zettel) (line : string) : Zettel :=
  let title' :=
    if Py.startswith line "# " then heading_text line else title z in
  let tags' :=
    if Py.contains "tags: " (Py.lower line)
    then read_tags line
    else tags z in
  {| path := path z; zid := zid z;
     links := links z ++ id_findall line;
     title := title'; tags := tags';
     backlinks := backlinks z; depth := depth z |}.

(** [Zettel.analyze_file] on the object [z], [content] being the text the
    file at [z.path] holds. *)
Definition analyze_file (z : Zettel) (content : string) : Zettel :=
  let z0 := {| path := path z; zid := zid z; links := [];
               title := title z; tags := tags z;
               backlinks := backlinks z; depth := depth z |} in
  foldl analyze_line z0 (Py.readlines content).

(** [Zettel(path)], for a file named [name] that holds [content].
    [__init__] assigns neither [backlinks] nor [depth]. No code reads
    [backlinks] before [_update_backlinks] has bound it on every registered
    note, so that field starts as the empty set here; [depth] is read by
    [_update_depths] before anything binds it and starts [Absent]. *)
Definition new_Zettel (name content : string) : Zettel :=
  analyze_file
    {| path := name; zid := get_zid name; links := [];
       title := EmptyString; tags := ∅; backlinks := ∅; depth := Absent |}
    content.

(** ** zettelkasten.py *)

Inductive exn : Type :=
| AttributeError
| AssertionError
| RecursionError.

(** How a call ends: it returns, or an exception leaves it. *)
Inductive outcome : Type :=
| Returned
| Raised (e : exn).

#[global] Instance exn_eq_dec : EqDecision exn.
Proof. solve_decision. Defined.
#[global] Instance outcome_eq_dec : EqDecision outcome.
Proof. solve_decision. Defined.

(** The collection. [zid_order] lists the keys of the dict [zid2zettel] in
    insertion order. An object registered in the dict is represented by the
    record stored under its key; no object is registered under two keys. *)
Record Zettelkasten : Type := mkZettelkasten {
  zid2zettel : gmap string Zettel;
  zid_order : list string;
  _finalized : bool
}.

Definition root_zid : string := "00000000000000".

(** [f"Could not find zettel with ZID {zid}"] *)
Definition not_found (z : string) : string :=
  "Could not find zettel with ZID " +:+ z.

Definition set_backlinks (b : gset string) (z : Zettel) : Zettel :=
  {| path := path z; zid := zid z; links := links z; title := title z;
     tags := tags z; backlinks := b; depth := depth z |}.

Definition set_depth (d : nat) (z : Zettel) : Zettel :=
  {| path := path z; zid := zid z; links := links z; title := title z;
     tags := tags z; backlinks := backlinks z; depth := Bound (Some d) |}.

(** The dict with the messages logged so far. *)
Definition store : Type := gmap string Zettel * list string.

(** The property [zettels]: the values of the dict, in order. *)
Definition zettels (m : gmap string Zettel) (order : list string) : list Zettel :=
  omap (λ k, m !! k) order.

(** [try: self.zid2zettel[linked_zid].backlinks.add(src)
     except KeyError: logger.error(...)] *)
Definition add_backlink (src : string) (st : store) (linked_zid : string) : store :=
  match st.1 !! linked_zid with
  | Some t => (<[linked_zid := set_backlinks (backlinks t ∪ {[src]}) t]> st.1, st.2)
  | None => (st.1, st.2 ++ [not_found linked_zid])
  end.

(** The body of the outer loop of [_update_backlinks] for one note. The note
    is read through its [zid] and [links], which the pass never changes. *)
Definition add_backlinks_of (st : store) (z : Zettel) : store :=
  foldl (add_backlink (zid z)) st (links z).

Definition _update_backlinks (zk : Zettelkasten) : store :=
  let reset := set_backlinks ∅ <$> zid2zettel zk in
  foldl add_backlinks_of (reset, []) (zettels reset (zid_order zk)).

(** [try: self.zid2zettel[daughter].depth = d
     except KeyError: logger.error(...)] *)
Definition assign_depth (daughter : string) (d : nat) (st : store) : store :=
  match st.1 !! daughter with
  | Some t => (<[daughter := set_depth d t]> st.1, st.2)
  | None => (st.1, st.2 ++ [not_found daughter])
  end.

(** The loop [for daughter in mother.links] of [_update_depths]; [rec] is the
    recursive call at depth [d]. *)
Fixpoint daughters (rec : string → store → outcome * store)
    (d : nat) (ds : list string) (st : store) : outcome * store :=
  match ds with
  | [] => (Returned, st)
  | daughter :: ds' =>
      match rec daughter st with
      | (Raised e, st') => (Raised e, st')
      | (Returned, st') => daughters rec d ds' (assign_depth daughter d st')
      end
  end.

(** [_update_depths]. The method calls itself on the call stack of the
    interpreter: [frames] is the number of calls of it that the stack still
    has room for, this one included. A call made when there is room for
    none is refused with [RecursionError] before its body runs; no handler
    of the method catches that exception, so it leaves every enclosing call
    at once, with the depths assigned so far left as they are. *)
Fixpoint _update_depths (frames : nat) (mother : string) (mother_depth : nat)
    (st : store) : outcome * store :=
  match frames with
  | O => (Raised RecursionError, st)
  | S frames' =>
      match st.1 !! mother with
      | None => (Returned, (st.1, st.2 ++ [not_found mother]))
      | Some m =>
          match depth m with
          | Absent => (Raised AttributeError, st)
          | Bound (Some _) => (Returned, st)
          | Bound None =>
              daughters
                (λ daughter st',
                   _update_depths frames' daughter (S mother_depth) st')
                (S mother_depth) (links m)
                (<[mother := set_depth mother_depth m]> st.1, st.2)
          end
      end
  end.

(** [add_zettels] and the constructor. The back-reference
    [zettel.zettelkasten = self] is read by no code here and is left out. *)
Definition add_zettel (zk : Zettelkasten) (z : Zettel) : Zettelkasten :=
  {| zid2zettel := <[zid z := z]> (zid2zettel zk);
     zid_order :=
       match zid2zettel zk !! zid z with
       | Some _ => zid_order zk
       | None => zid_order zk ++ [zid z]
       end;
     _finalized := _finalized zk |}.

Definition add_zettels (zk : Zettelkasten) (zs : list Zettel) : Zettelkasten :=
  foldl add_zettel
    {| zid2zettel := zid2zettel zk; zid_order := zid_order zk;
       _finalized := false |} zs.

Definition new_Zettelkasten (zs : list Zettel) : Zettelkasten :=
  add_zettels {| zid2zettel := ∅; zid_order := []; _finalized := false |} zs.

(** [finalize]: the outcome, the collection afterwards and the messages
    logged. [limit] is the number of calls of [_update_depths] that the
    stack has room for below the first one, which [finalize] itself makes;
    it is what the recursion limit of the interpreter leaves of the stack
    where [finalize] is called. *)
Definition finalize (limit : nat) (zk : Zettelkasten)
    : outcome * Zettelkasten * list string :=
  let st := _update_backlinks zk in
  match _update_depths (S limit) root_zid 0 st with
  | (Returned, (m, log)) =>
      (Returned,
       {| zid2zettel := m; zid_order := zid_order zk; _finalized := true |},
       log)
  | (Raised e, (m, log)) =>
      (Raised e,
       {| zid2zettel := m; zid_order := zid_order zk;
          _finalized := _finalized zk |},
       log)
  end.

(** Well-formed collections: [zid_order] lists the keys of [zid2zettel]
    once each, and every note is registered under its own [zid], as
    [add_zettels] does it. *)
Definition wf (zk : Zettelkasten) : Prop :=
  NoDup (zid_order zk)
  ∧ (∀ k, k ∈ zid_order zk ↔ is_Some (zid2zettel zk !! k))
  ∧ (∀ k z, zid2zettel zk !! k = Some z → zid z = k).

(** The ids of the notes of [zs] whose [links] mention [k]. *)
Definition sources (k : string) (zs : list Zettel) : gset string :=
  list_to_set (zid <$> filter (λ z, k ∈ links z) zs).

(** The messages the backlink pass logs for the note [z]: one for each
    entry of [links] that is not a key of [m], in order. *)
Definition dangling (m : gmap string Zettel) (z : Zettel) : list string :=
  not_found <$> filter (λ l, m !! l = None) (links z).

(** The title as the claim reads it: the heading text of the first line that
    begins with the marker, the empty string when there is none. *)
Definition title_of_first_heading (content : string) : string :=
  match filter (λ l, Py.startswith l "# " = true) (Py.readlines content) with
  | line :: _ => heading_text line
  | [] => EmptyString
  end.

(** ** note_transformer.py *)

(** ["#" + tag] *)
Definition hash (tag : string) : string := "#" +:+ tag.

(** [DefaultTransformer._format_tags] *)
Definition _format_tags (tags : gset string) : string :=
  "Tags: " +:+ Py.join " " (hash <$> Py.sorted tags) +:+ Py.nl.


(** A value, or the exception that left the call. *)
Inductive result (A : Type) : Type :=
| Ok (a : A)
| Raise (e : exn).
Arguments Ok {A} a.
Arguments Raise {A} e.

(** One line of the line model that [MarkdownReader] builds. *)
Record MarkdownLine : Type := mkLine {
  text : string;
  is_code_block : bool;
  current_section : list string;
  is_last_line : bool
}.

Definition set_text (t : string) (l : MarkdownLine) : MarkdownLine :=
  {| text := t; is_code_block := is_code_block l;
     current_section := current_section l; is_last_line := is_last_line l |}.

(** The state of the loop of [transform]: the lines of [md_reader], whose
    [text] the loop assigns to, and [out_lines]. *)
Record tstate : Type := mkTstate {
  md_lines : list MarkdownLine;
  out_lines : list string
}.

(** Modelled from the spec: [Zettelkasten.get_backlinks] is called by
    [transform] and is not in [zettelkasten.py]; the spec's [backlinks_of]
    returns the computed backlinks of the note, or the empty set when the id
    is not registered. *)
Definition get_backlinks (zk : Zettelkasten) (nid : string) : gset string :=
  match zid2zettel zk !! nid with
  | Some z => backlinks z
  | None => ∅
  end.

Section transformer.

(** The collection and the hook of [DefaultTransformer.__init__]. *)
Variable zk : Zettelkasten.
Variable tag_transformer : gset string → gset string.

(** What [transform] takes from the class [Note] and from [os.path], which
    are not among the sources: [note._read_tags],
    [Note.autogen_link_regex.sub("", .)],
    [Note.id_link_regex_no_group.findall], [Note.id_regex.findall], and
    [Path(os.path.relpath(target, note.path.parent))] as a function of the
    target's path and the note's path. *)
Variable _read_tags : string → gset string.
Variable autogen_link_sub : string → string.
Variable id_link_findall : string → list string.
Variable note_id_findall : string → list string.
Variable rel_path : string → string → string.

(** The note being transformed: its path, its id and the tags parsed at
    construction. *)
Variable note : Zettel.

Definition _format_link (z : string) : string :=
  match zid2zettel zk !! z with
  | Some target =>
      "[[" +:+ z +:+ "]] [" +:+ title target +:+ "]("
      +:+ rel_path (path target) (path note)
      +:+ " " +:+ Py.dq +:+ "autogen" +:+ Py.dq +:+ ")"
  | None => "[[" +:+ z +:+ "]]"
  end.

(** The loop [for link in links]; the [assert] raises when a link token
    does not hold exactly one id. *)
Fixpoint add_new_links (links : list string) (t : string) : result string :=
  match links with
  | [] => Ok t
  | link :: rest =>
      match note_id_findall link with
      | [z] => add_new_links rest (Py.replace t link (_format_link z))
      | _ => Raise AssertionError
      end
  end.

(** [len(current_section) == 2 and current_section[-1].lower() == "backlinks"] *)
Definition in_backlinks_section (l : MarkdownLine) : bool :=
  (length (current_section l) =? 2)
  && bool_decide (Py.lower (default EmptyString (last (current_section l)))
                  = "backlinks").

(** The block under [if md_line.is_last_line], for a non-empty set of
    backlinks. *)
Definition backlinks_section (backlinks : gset string) (out : list string)
    : list string :=
  let spaced :=
    match last out with
    | None => out
    | Some l =>
        if bool_decide (l = Py.nl) then out
        else if Py.endswith_nl l then out ++ [Py.nl]
        else out ++ [Py.nl; Py.nl]
    end in
  (spaced ++ ["## Backlinks" +:+ Py.nl; Py.nl])
  ++ ((λ b, "* " +:+ _format_link b +:+ Py.nl) <$> Py.sorted backlinks).

Definition add_backlinks_section (l : MarkdownLine) (out : list string)
    : list string :=
  if is_last_line l then
    let backlinks := get_backlinks zk (zid note) in
    if bool_decide (backlinks = ∅) then out else backlinks_section backlinks out
  else out.

(** The test the two header rules share, for the marker [m]. *)
Definition underlines (m : string) (i : nat) (l : MarkdownLine)
    (t prev : string) : bool :=
  (1 <? i) && negb (is_code_block l) && Py.startswith t m
  && Py.truthy (Py.strip prev).

(** One iteration of the loop of [transform], for the line of index [i].
    [t] is [md_line.text] as the rules assign to it; it is stored back in
    the line wherever the iteration ends. [prev] is
    [md_reader.lines[i - 1].text], read only where [i >= 1]. *)
Definition transform_line (i : nat) (st : tstate) : result tstate :=
  match md_lines st !! i with
  | None => Ok st
  | Some l =>
      let prev := default EmptyString (text <$> md_lines st !! (i - 1)) in
      let out := out_lines st in
      let t := text l in
      (* Fixing *)
      if is_code_block l && Py.contains "tags: " (Py.lower t) then
        Ok {| md_lines := md_lines st;
              out_lines := if (1 <=? i) && negb (Py.truthy (Py.strip prev))
                           then removelast out else out |}
      else
        (* Change style of headers *)
        let '(out, t) :=
          if underlines "===" i l t prev
          then (removelast out, "# " +:+ prev) else (out, t) in
        let '(out, t) :=
          if underlines "---" i l t prev
          then (removelast out, "## " +:+ prev) else (out, t) in
        (* Modifying tags if haven't been given before *)
        let out :=
          if bool_decide (tags note = ∅) && (1 <=? i)
             && Py.startswith prev "# " && negb (is_code_block l)
             && negb (bool_decide (tag_transformer ∅ = ∅))
          then out ++ [Py.nl; _format_tags (tag_transformer ∅)] else out in
        (* Modifying tags if already given *)
        let tag_line :=
          Py.contains "tags: " (Py.lower t) && negb (is_code_block l) in
        let new_tags := tag_transformer (_read_tags t) in
        if tag_line && bool_decide (new_tags = ∅) then
          Ok {| md_lines := alter (set_text t) i (md_lines st);
                out_lines := out |}
        else
          let t := if tag_line then _format_tags new_tags else t in
          (* Replacing/extending links *)
          let t := autogen_link_sub t in
          match add_new_links (id_link_findall t) t with
          | Raise e => Raise e
          | Ok t =>
              (* Remove old backlinks section; add lines *)
              let out := if in_backlinks_section l then out else out ++ [t] in
              (* Add new backlinks section to file *)
              Ok {| md_lines := alter (set_text t) i (md_lines st);
                    out_lines := add_backlinks_section l out |}
          end
  end.

Fixpoint transform_lines (ix : list nat) (st : tstate) : result tstate :=
  match ix with
  | [] => Ok st
  | i :: rest =>
      match transform_line i st with
      | Ok st' => transform_lines rest st'
      | Raise e => Raise e
      end
  end.

(** [DefaultTransformer.transform], on the lines [MarkdownReader] gives
    for the file of the note. *)
Definition transform (lines : list MarkdownLine) : result string :=
  match transform_lines (seq 0 (length lines))
          {| md_lines := lines; out_lines := [] |} with
  | Ok st => Ok (Py.join EmptyString (out_lines st))
  | Raise e => Raise e
  end.

End transformer.


(** ** The parts of the pipeline that are not among the sources *)

Fixpoint str_drop (n : nat) (s : string) : string :=
  match n, s with
  | S k, String _ r => str_drop k r
  | _, _ => s
  end.

Fixpoint str_take (n : nat) (s : string) : string :=
  match n, s with
  | S k, String c r => String c (str_take k r)
  | _, _ => EmptyString
  end.

Fixpoint str_all (p : ascii → bool) (s : string) : bool :=
  match s with
  | EmptyString => true
  | String c r => p c && str_all p r
  end.

Fixpoint index_of (c : ascii) (s : string) : option nat :=
  match s with
  | EmptyString => None
  | String a r => if Ascii.eqb a c then Some 0 else S <$> index_of c r
  end.

Definition endswith (s p : string) : bool :=
  (String.length p <=? String.length s)
  && bool_decide (str_drop (String.length s - String.length p) s = p).

Fixpoint leading_hashes (s : string) : nat :=
  match s with
  | String "#" r => S (leading_hashes r)
  | _ => 0
  end.

(** A heading line: its level and its title. *)
Definition heading (line : string) : option (nat * string) :=
  let k := leading_hashes line in
  if (0 <? k) && Py.startswith (str_drop k line) " "
  then Some (k, Py.strip (str_drop k line))
  else None.

Fixpoint reader_go (in_code : bool) (section : list string)
    (lines : list string) : list MarkdownLine :=
  match lines with
  | [] => []
  | line :: rest =>
      let fence := Py.startswith line "```" in
      let section' :=
        match heading line with
        | Some (k, t) =>
            take (k - 1) (section ++ replicate (k - 1) EmptyString) ++ [t]
        | None => section
        end in
      {| text := line; is_code_block := in_code && negb fence;
         current_section := section';
         is_last_line := match rest with [] => true | _ => false end |}
      :: reader_go (if fence then negb in_code else in_code) section' rest
  end.

(** Modelled from the spec: [MarkdownReader] is imported by
    [note_transformer.py] and is not among the sources. The line model is
    built in one forward pass: a line that opens or closes a fenced block
    toggles the code-region state and the lines between the fences are
    marked; a heading line replaces the stack of heading titles from its
    level on, whatever the code-region state; exactly the final line is
    marked as last. Lines keep their line ends. *)
Definition markdown_reader (content : string) : list MarkdownLine :=
  reader_go false [] (Py.readlines content).

(** The length of an auto-generated decoration at the start of [s]: a space,
    a bracketed title and a parenthesised target that ends with the quoted
    marker. *)
Definition autogen_at (s : string) : option nat :=
  match s with
  | String " " (String "[" r) =>
      match index_of "]" r with
      | Some n1 =>
          match str_drop (S n1) r with
          | String "(" r2 =>
              match index_of ")" r2 with
              | Some n2 =>
                  if endswith (str_take n2 r2)
                       (" " +:+ Py.dq +:+ "autogen" +:+ Py.dq)
                  then Some (n1 + n2 + 5) else None
              | None => None
              end
          | _ => None
          end
      | None => None
      end
  | _ => None
  end.

Fixpoint strip_autogen_go (skip : nat) (s : string) : string :=
  match s with
  | EmptyString => EmptyString
  | String c r =>
      match skip with
      | S k => strip_autogen_go k r
      | O =>
          match autogen_at s with
          | Some n => strip_autogen_go (n - 1) r
          | None => String c (strip_autogen_go 0 r)
          end
      end
  end.

(** Modelled from the spec: [Note.autogen_link_regex] is not among the
    sources. Rule 5 strips every previously auto-generated link decoration,
    recognised by its marker, from the line; the decoration is the part that
    [_format_link] puts after the bare link. *)
Definition strip_autogen (s : string) : string := strip_autogen_go 0 s.

Definition bare_link_at (s : string) : option string :=
  let digits := str_take 14 (str_drop 2 s) in
  if String.prefix "[[" s && (String.length digits =? 14)
     && str_all Py.isdigit digits && String.prefix "]]" (str_drop 16 s)
  then Some (str_take 18 s) else None.

Fixpoint bare_links_go (skip : nat) (s : string) : list string :=
  match s with
  | EmptyString => []
  | String c r =>
      match skip with
      | S k => bare_links_go k r
      | O =>
          match bare_link_at s with
          | Some l => l :: bare_links_go 17 r
          | None => bare_links_go 0 r
          end
      end
  end.

(** Modelled from the spec: [Note.id_link_regex_no_group] is not among the
    sources. A bare identifier-link token is an id, fourteen digits, wrapped
    in double brackets. *)
Definition bare_links (s : string) : list string := bare_links_go 0 s.

(** All notes in one directory: the relative path of a target is its file
    name. *)
Definition same_directory (target _ : string) : string := target.

(** The pipeline on the file [name] with text [content]: the note is
    constructed from the file, the line model is read from it, and
    [transform] runs with the default hook, the identity. *)
Definition pipeline (zk : Zettelkasten) (name content : string) : result string :=
  transform zk id read_tags strip_autogen bare_links id_findall same_directory
    (new_Zettel name content) (markdown_reader content).

(** The collection of the notes [zs] once [finalize] has run, with room on
    the stack for one nested call for each note. *)
Definition finalized (zs : list Zettel) : Zettelkasten :=
  (finalize (length zs) (new_Zettelkasten zs)).1.2.

(** ** Definitions the statements use *)

(** [z.backlinks |= B] *)
Definition join_backlinks (B : gset string) (z : Zettel) : Zettel :=
  set_backlinks (backlinks z ∪ B) z.

(** The note without its depth. *)
Definition forget_depth (z : Zettel) : Zettel :=
  {| path := path z; zid := zid z; links := links z; title := title z;
     tags := tags z; backlinks := backlinks z; depth := Absent |}.

(** What a depth pass may do to one note: nothing but bind its depth to a
    number. *)
Definition deepened (z z' : Zettel) : Prop :=
  forget_depth z' = forget_depth z
  ∧ (depth z' = depth z ∨ ∃ d, depth z' = Bound (Some d)).

(** What a depth pass may do to the dict: the keys stay, and every note is
    [deepened]. *)
Definition evolves (m m' : gmap string Zettel) : Prop :=
  ∀ k, match m !! k, m' !! k with
       | Some z, Some z' => deepened z z'
       | None, None => True
       | _, _ => False
       end.

(** The keys a depth pass can still enter. *)
Definition pending (m : gmap string Zettel) : gset string :=
  dom (filter (λ kz, depth kz.2 = Bound None) m).

(** Two notes with the same id and the same outgoing links. *)
Definition same_graph (z z' : Zettel) : Prop :=
  zid z = zid z' ∧ links z = links z'.

(** Ids for the examples; [missing_zid] is never registered. *)
Definition other_zid : string := "20230101000001".

Definition third_zid : string := "20230101000002".

Definition missing_zid : string := "20230101000009".

(** A note as the constructor leaves it, but with [depth] bound to [None]
    beforehand. *)
Definition preset (z : Zettel) : Zettel :=
  {| path := path z; zid := zid z; links := links z; title := title z;
     tags := tags z; backlinks := backlinks z; depth := Bound None |}.

(** The note of the file [id.md] whose only line is [body]. *)
Definition note (id body : string) : Zettel :=
  new_Zettel (id +:+ ".md") (body +:+ Py.nl).

(** The root links to one note, which links back. *)
Definition two_cycle : list Zettel :=
  [note root_zid ("see " +:+ other_zid); note other_zid ("back to " +:+ root_zid)].

(** The root, a second and a third note in a ring. *)
Definition three_cycle : list Zettel :=
  [note root_zid ("see " +:+ other_zid);
   note other_zid ("see " +:+ third_zid);
   note third_zid ("back to " +:+ root_zid)].

(** The root alone, linking to an id nobody has. *)
Definition dangling_root : list Zettel :=
  [note root_zid ("see " +:+ missing_zid)].

(** What a test would read off after [finalize]: how the call ended, and for
    each note in order its id, backlinks and depth, and the log. *)
Definition report (limit : nat) (zk : Zettelkasten)
    : outcome * list (string * list string * attr (option nat))
      * list string :=
  let '(o, zk', log) := finalize limit zk in
  (o,
   (λ z, (zid z, elements (backlinks z), depth z))
     <$> zettels (zid2zettel zk') (zid_order zk'),
   log).

(** [finalize], then [add_zettels], then [finalize] again. *)
Definition report_after_registering (limit : nat) (zs1 zs2 : list Zettel) :=
  report limit (add_zettels (finalize limit (new_Zettelkasten zs1)).1.2 zs2).

(** A note with an underlined title on its second and third line. *)
Definition setext_note : string :=
  "x" +:+ Py.nl +:+ "Title" +:+ Py.nl +:+ "===" +:+ Py.nl.

(** The loop state when the third line of [setext_note] is reached. *)
Definition setext_state : tstate :=
  {| md_lines := markdown_reader setext_note;
     out_lines := ["x" +:+ Py.nl; "Title" +:+ Py.nl] |}.

(** The line without its line end is not empty and holds only [c]. *)
Definition only_repeated (c : ascii) (line : string) : bool :=
  let body := if Py.endswith_nl line
              then str_take (String.length line - 1) line else line in
  Py.truthy body && str_all (Ascii.eqb c) body.

(** The note [other_zid] ends with a tag line without tags; the note
    [third_zid] links to it. *)
Definition untagged : string := "a" +:+ Py.nl +:+ "tags: " +:+ Py.nl.

(** The two notes, registered and finalized. The root is not registered, so
    the depth pass only logs that and returns. *)
Definition linked_pair : Zettelkasten :=
  finalized [new_Zettel (other_zid +:+ ".md") untagged;
             note third_zid ("# Bee" +:+ Py.nl +:+ "see [[" +:+ other_zid +:+ "]]")].

(** No registered note lacks the attribute [depth]. *)
Definition all_bound (m : gmap string Zettel) : Prop :=
  ∀ k z, m !! k = Some z → depth z ≠ Absent.

(** The note registered as [k] has a number as its depth. *)
Definition visited (m : gmap string Zettel) (k : string) : Prop :=
  ∃ z d, m !! k = Some z ∧ depth z = Bound (Some d).

(** Every visited note outside [S] has all its registered link targets
    visited. *)
Definition closed (S : gset string) (m : gmap string Zettel) : Prop :=
  ∀ a z b, m !! a = Some z → visited m a → a ∉ S →
           b ∈ links z → is_Some (m !! b) → visited m b.

(** The registered notes the root reaches by following links between
    registered notes. *)
Inductive reachable (m : gmap string Zettel) : string → Prop :=
| reach_root : is_Some (m !! root_zid) → reachable m root_zid
| reach_link a z b :
    reachable m a → m !! a = Some z → b ∈ links z → is_Some (m !! b) →
    reachable m b.

(** ** The rest of zettel.py and zettelkasten.py *)

(** A string of exactly fourteen digits. *)
Definition is_id (s : string) : bool :=
  (String.length s =? 14) && str_all Py.isdigit s.

(** The test of [analyze_file] for a tag line. *)
Definition is_tag_line (line : string) : bool :=
  Py.contains "tags: " (Py.lower line).

(** The property [Zettelkasten.tags]:
    [tags = set(); for z in self.zettels: tags |= z.tags]. *)
Definition zk_tags (zk : Zettelkasten) : gset string :=
  foldl (λ acc z, acc ∪ tags z) ∅ (zettels (zid2zettel zk) (zid_order zk)).

(** The property [Zettelkasten.categories]. *)
Definition categories (zk : Zettelkasten) : gset string :=
  filter (λ t, Py.startswith t "c_" = true) (zk_tags zk).

(** The loop of the property [Zettelkasten.depth]; the test
    [z.depth is not None] reads the attribute. *)
Fixpoint max_depth (zs : list Zettel) (maxdepth : nat) : result nat :=
  match zs with
  | [] => Ok maxdepth
  | z :: rest =>
      match depth z with
      | Absent => Raise AttributeError
      | Bound None => max_depth rest maxdepth
      | Bound (Some d) => max_depth rest (Nat.max d maxdepth)
      end
  end.

(** The property [Zettelkasten.depth]. *)
Definition zk_depth (zk : Zettelkasten) : result nat :=
  max_depth (zettels (zid2zettel zk) (zid_order zk)) 0.

(** [Zettelkasten.get_by_path]; [path_name] is [Path(p).name]. *)
Definition get_by_path (path_name : string → string) (zk : Zettelkasten)
    (p : string) : result Zettel :=
  match filter (λ z, path_name (path z) = path_name p)
          (zettels (zid2zettel zk) (zid_order zk)) with
  | [z] => Ok z
  | _ => Raise AssertionError
  end.

(** Every depth that is a number is at most [n]. *)
Definition depths_at_most (n : nat) (m : gmap string Zettel) : Prop :=
  ∀ k z d, m !! k = Some z → depth z = Bound (Some d) → d ≤ n.

(** No registered note has a link to [r]. *)
Definition unlinked (r : string) (m : gmap string Zettel) : Prop :=
  ∀ k z, m !! k = Some z → r ∉ links z.

(** Every registered note has its depth bound to [None]. *)
Definition fresh (m : gmap string Zettel) : Prop :=
  ∀ k z, m !! k = Some z → depth z = Bound None.

(** ** Lines the pipeline has nothing to do with *)

(** A line to which no rewriting rule of [transform] applies: it holds no
    tag marker, does not start like an underline, has no auto-generated
    decoration to strip and no link token to decorate, and lies outside a
    Backlinks section. [autogen_link_sub] and [id_link_findall] are the two
    regular expressions of [Note] as in [transform]. *)
Definition plain (autogen_link_sub : string → string)
    (id_link_findall : string → list string) (l : MarkdownLine) : Prop :=
  Py.contains "tags: " (Py.lower (text l)) = false
  ∧ Py.startswith (text l) "===" = false
  ∧ Py.startswith (text l) "---" = false
  ∧ autogen_link_sub (text l) = text l
  ∧ id_link_findall (text l) = []
  ∧ in_backlinks_section l = false.

(** ** dot_graph *)

Definition tab : string := String "009"%char EmptyString.

(** [str(zettel.depth)] for a depth that is bound. *)
Definition depth_str (d : option nat) : string :=
  match d with
  | None => "None"
  | Some n => pretty n
  end.

(** [f"Didn't find zettel with zid {link}."] *)
Definition didnt_find (link : string) : string :=
  "Didn't find zettel with zid " +:+ link +:+ ".".

(** [f"\t{zettel.zid} -> {link} [color=black];"] *)
Definition edge (a b : string) : string :=
  tab +:+ a +:+ " -> " +:+ b +:+ " [color=black];".

(** [f"\t{zettel.zid} -> {link} [color=black dir=both];"] *)
Definition both (a b : string) : string :=
  tab +:+ a +:+ " -> " +:+ b +:+ " [color=black dir=both];".

(** The locals [lines] and [drawn_links] of [dot_graph], with the messages
    logged so far. *)
Record graph : Type := mkGraph {
  lines : list string;
  drawn_links : list (string * string);
  logged : list string
}.

Section dot_graph.

(** [Path.resolve], which depends on the working directory, as a function
    of the path; and the [pick] of a colour picker that returns (as that of
    [ConstantColorPicker] does). The default picker, [DepthColorPicker], is
    built on a library that is not part of the sources; the model is of the
    call with a picker given. *)
Variable resolve : string → string.
Variable pick : Zettel → string.

(** The line of a note whose depth is bound to [d]. *)
Definition node_line (z : Zettel) (d : option nat) : string :=
  tab +:+ zid z +:+ " [label=" +:+ Py.dq +:+ title z
  +:+ " (" +:+ depth_str d +:+ ")" +:+ Py.dq
  +:+ " labelURL=" +:+ Py.dq +:+ "file://" +:+ resolve (path z) +:+ Py.dq
  +:+ " color=" +:+ pick z +:+ "];".

(** The body of [for link in zettel.links]. *)
Definition draw_link (m : gmap string Zettel) (z : Zettel) (g : graph)
    (link : string) : graph :=
  match m !! link with
  | None =>
      {| lines := lines g; drawn_links := drawn_links g;
         logged := logged g ++ [didnt_find link] |}
  | Some target =>
      if bool_decide ((zid z, link) ∈ drawn_links g) then g
      else if bool_decide (zid z ∉ links target) then
        {| lines := lines g ++ [edge (zid z) link];
           drawn_links := drawn_links g ++ [(zid z, link)];
           logged := logged g |}
      else
        {| lines := lines g ++ [both (zid z) link];
           drawn_links := drawn_links g ++ [(zid z, link); (link, zid z)];
           logged := logged g |}
  end.

(** The loop [for zettel in self.zettels]; reading a depth that was never
    bound, for the label, leaves the loop by [AttributeError]. *)
Fixpoint draw_zettels (m : gmap string Zettel) (zs : list Zettel) (g : graph)
    : outcome * graph :=
  match zs with
  | [] => (Returned, g)
  | z :: rest =>
      match depth z with
      | Absent => (Raised AttributeError, g)
      | Bound d =>
          draw_zettels m rest
            (foldl (draw_link m z)
               {| lines := lines g ++ [node_line z d];
                  drawn_links := drawn_links g; logged := logged g |}
               (links z))
      end
  end.

(** [dot_graph]: the text or the exception, the collection afterwards and
    the messages logged. [limit] is that of [finalize]. *)
Definition dot_graph (limit : nat) (zk : Zettelkasten)
    : result string * Zettelkasten * list string :=
  match (if _finalized zk then (Returned, zk, []) else finalize limit zk) with
  | (Raised e, zk', log) => (Raise e, zk', log)
  | (Returned, zk', log) =>
      match draw_zettels (zid2zettel zk')
              (zettels (zid2zettel zk') (zid_order zk'))
              {| lines := ["digraph zettelkasten {"; tab +:+ "node [shape=box];"];
                 drawn_links := []; logged := log |} with
      | (Raised e, g) => (Raise e, zk', logged g)
      | (Returned, g) =>
          (Ok (Py.join Py.nl (lines g ++ ["}"])), zk', logged g)
      end
  end.

End dot_graph.

(** The messages [dot_graph] logs for the note [z]: one for each entry of
    [links] that is not a key of [m], in order. *)
Definition missing (m : gmap string Zettel) (z : Zettel) : list string :=
  didnt_find <$> filter (λ l, m !! l = None) (links z).

(** Depths that were never bound stay so. *)
Definition absent_kept (m m' : gmap string Zettel) : Prop :=
  ∀ k z, m !! k = Some z → depth z = Absent →
         ∃ z', m' !! k = Some z' ∧ depth z' = Absent.

(** What [dot_graph] starts its text with. *)
Definition graph_header : list string :=
  ["digraph zettelkasten {"; tab +:+ "node [shape=box];"].

(** The line that shows the link from [a] to the registered note [zb] with
    id [b] is among [body]: an arrow from [a] to [b] when [zb] does not link
    back, an arrow with two heads in either direction when it does. *)
Definition shown (body : list string) (a b : string) (zb : Zettel) : Prop :=
  if bool_decide (a ∈ links zb)
  then both a b ∈ body ∨ both b a ∈ body
  else edge a b ∈ body.

(** Every pair of [drawn_links] that ends in a registered note is shown by
    the lines after the first [n]. *)
Definition drawn_in (m : gmap string Zettel) (n : nat) (g : graph) : Prop :=
  ∀ a b zb, (a, b) ∈ drawn_links g → m !! b = Some zb →
            shown (drop n (lines g)) a b zb.

(** [g'] continues [g]: lines, pairs and messages are only added. *)
Definition continues (g g' : graph) : Prop :=
  lines g `prefix_of` lines g' ∧ drawn_links g ⊆ drawn_links g'.

(** [ConstantColorPicker(color).pick] *)
Definition constant_pick (color : string) (_ : Zettel) : string := color.

(** ** CategoryColorPicker *)

Definition default_colors : list string :=
  ["#8dd3c7"; "#ffffb3"; "#bebada"; "#fb8072"; "#80b1d3"; "#fdb462";
   "#b3de69"; "#fccde5"; "#d9d9d9"; "#bc80bd"; "#ccebc5"; "#ffed6f"].

(** The dict comprehension of the constructor, from index [i] on, over the
    categories in the order in which the set yields them. [None] stands for
    the [ZeroDivisionError] of [i % len(colors)] with an empty list. *)
Fixpoint category2color_go (colors : list string) (i : nat)
    (cats : list string) (acc : gmap string string)
    : option (gmap string string) :=
  match cats with
  | [] => Some acc
  | c :: rest =>
      match colors !! (i mod length colors) with
      | Some color => category2color_go colors (S i) rest (<[c := color]> acc)
      | None => None
      end
  end.

(** [CategoryColorPicker.__init__]: the attribute [category2color].
    [cats] is the set [zettelkasten.categories] as its iteration yields it;
    the order is not fixed by the language. *)
Definition category2color (colors : option (list string)) (cats : list string)
    : option (gmap string string) :=
  category2color_go (default default_colors colors) 0 cats ∅.

(** [CategoryColorPicker.pick]; [None] stands for the [KeyError] of
    [self.category2color[c]]. *)
Definition category_pick (c2c : gmap string string) (z : Zettel)
    : option string :=
  match elements (filter (λ t, Py.startswith t "c_" = true) (tags z)) with
  | [c] => c2c !! c
  | _ => Some "white"
  end.

(** * Theorems *)

(** ** The primitives on small inputs *)

Example split_at_marker : Py.split "# A # B" "# " = [EmptyString; "A "; "B"].
Proof. reflexivity. Qed.

Example readlines_keeps_ends :
  Py.readlines ("a" +:+ Py.nl +:+ Py.nl +:+ "b")
  = ["a" +:+ Py.nl; Py.nl; "b"].
Proof. reflexivity. Qed.

Example strip_both_sides : Py.strip ("  a b " +:+ Py.nl) = "a b".
Proof. reflexivity. Qed.

Example replace_all : Py.replace "abcabc" "bc" "X" = "aXaX".
Proof. reflexivity. Qed.

Example id_findall_runs :
  id_findall "x123456789012345 0000000000000011111111111111 1234"
  = ["12345678901234"; "00000000000000"; "11111111111111"].
Proof. reflexivity. Qed.

Example tag_findall_tokens :
  tag_findall "Tags: #b #a#c # x" = ["#b"; "#a#c"; "#"].
Proof. reflexivity. Qed.

Example get_zid_of_name :
  get_zid "note_20230101000001_x.md" = "20230101000001"
  ∧ get_zid "readme.md" = "readme.md".
Proof. split; reflexivity. Qed.

Example reader_marks_lines :
  markdown_reader ("# A" +:+ Py.nl +:+ "```" +:+ Py.nl +:+ "code" +:+ Py.nl
                   +:+ "```" +:+ Py.nl +:+ "## B")
  = [ {| text := "# A" +:+ Py.nl; is_code_block := false;
         current_section := ["A"]; is_last_line := false |};
      {| text := "```" +:+ Py.nl; is_code_block := false;
         current_section := ["A"]; is_last_line := false |};
      {| text := "code" +:+ Py.nl; is_code_block := true;
         current_section := ["A"]; is_last_line := false |};
      {| text := "```" +:+ Py.nl; is_code_block := false;
         current_section := ["A"]; is_last_line := false |};
      {| text := "## B"; is_code_block := false;
         current_section := ["A"; "B"]; is_last_line := true |} ].
Proof. reflexivity. Qed.

(** ** The backlink pass *)

Lemma join_backlinks_empty z : join_backlinks ∅ z = z.
Proof.
  destruct z. unfold join_backlinks, set_backlinks. simpl.
  by rewrite (right_id_L ∅ (∪)).
Qed.

Lemma join_backlinks_join A B z :
  join_backlinks B (join_backlinks A z) = join_backlinks (A ∪ B) z.
Proof.
  destruct z. unfold join_backlinks, set_backlinks. simpl.
  by rewrite (assoc_L (∪)).
Qed.

Lemma add_backlink_lookup src st l k :
  (add_backlink src st l).1 !! k
  = join_backlinks (if decide (k = l) then {[src]} else ∅) <$> st.1 !! k.
Proof.
  unfold add_backlink. destruct (st.1 !! l) as [t|] eqn:Hl; simpl.
  - case_decide as Hk.
    + subst k. rewrite lookup_insert_eq, Hl. done.
    + rewrite lookup_insert_ne by done.
      destruct (st.1 !! k); simpl; [|done]. by rewrite join_backlinks_empty.
  - case_decide as Hk.
    + subst k. by rewrite Hl.
    + destruct (st.1 !! k); simpl; [|done]. by rewrite join_backlinks_empty.
Qed.

Lemma add_backlinks_lookup src ls st k :
  (foldl (add_backlink src) st ls).1 !! k
  = join_backlinks (if decide (k ∈ ls) then {[src]} else ∅) <$> st.1 !! k.
Proof.
  revert st. induction ls as [|l ls IH]; intros st; cbn [foldl].
  - case_decide as Hk; [by apply elem_of_nil in Hk|].
    destruct (st.1 !! k); simpl; [|done]. by rewrite join_backlinks_empty.
  - rewrite IH, add_backlink_lookup.
    destruct (st.1 !! k) as [t|]; simpl; [|done].
    rewrite join_backlinks_join. do 2 f_equal.
    repeat case_decide; set_solver.
Qed.

Lemma sources_cons k z zs :
  sources k (z :: zs)
  = (if decide (k ∈ links z) then {[zid z]} else ∅) ∪ sources k zs.
Proof.
  unfold sources. rewrite filter_cons. case_decide; simpl; set_solver.
Qed.

Lemma add_backlinks_of_lookup zs st k :
  (foldl add_backlinks_of st zs).1 !! k
  = join_backlinks (sources k zs) <$> st.1 !! k.
Proof.
  revert st. induction zs as [|z zs IH]; intros st; cbn [foldl].
  - destruct (st.1 !! k); simpl; [|done].
    by rewrite join_backlinks_empty.
  - rewrite IH. unfold add_backlinks_of. rewrite add_backlinks_lookup.
    destruct (st.1 !! k) as [t|]; simpl; [|done].
    by rewrite join_backlinks_join, sources_cons.
Qed.

Lemma zettels_fmap (f : Zettel → Zettel) m order :
  zettels (f <$> m) order = f <$> zettels m order.
Proof.
  unfold zettels. induction order as [|k order IH]; [done|].
  cbn [omap list_omap]. rewrite lookup_fmap, IH. by destruct (m !! k).
Qed.

Lemma sources_ext k (f : Zettel → Zettel) zs :
  (∀ z, zid (f z) = zid z) → (∀ z, links (f z) = links z) →
  sources k (f <$> zs) = sources k zs.
Proof.
  intros Hz Hl. unfold sources. induction zs as [|z zs IH]; simpl; [done|].
  rewrite !filter_cons, Hl. case_decide; simpl; rewrite ?Hz; set_solver.
Qed.

(** After the pass every note holds exactly the ids of the notes that link
    to its key; nothing else of a note changes. *)
Lemma _update_backlinks_lookup zk k :
  (_update_backlinks zk).1 !! k
  = (λ z, set_backlinks (sources k (zettels (zid2zettel zk) (zid_order zk))) z)
      <$> zid2zettel zk !! k.
Proof.
  unfold _update_backlinks. rewrite add_backlinks_of_lookup. simpl.
  rewrite lookup_fmap, zettels_fmap, sources_ext by done.
  destruct (zid2zettel zk !! k) as [z|]; simpl; [|done].
  f_equal. destruct z. unfold join_backlinks, set_backlinks; simpl.
  f_equal. set_solver.
Qed.

Lemma elem_of_sources k zs a :
  a ∈ sources k zs ↔ ∃ z, z ∈ zs ∧ zid z = a ∧ k ∈ links z.
Proof.
  unfold sources. rewrite elem_of_list_to_set, list_elem_of_fmap.
  setoid_rewrite list_elem_of_filter. naive_solver.
Qed.

Lemma elem_of_zettels m order z :
  z ∈ zettels m order ↔ ∃ k, k ∈ order ∧ m !! k = Some z.
Proof. unfold zettels. by rewrite list_elem_of_omap. Qed.

(** ** The depth pass *)

Lemma deepened_refl z : deepened z z.
Proof. split; auto. Qed.

Lemma deepened_trans z1 z2 z3 :
  deepened z1 z2 → deepened z2 z3 → deepened z1 z3.
Proof.
  intros [H1 D1] [H2 D2]. split; [congruence|].
  destruct D2 as [D2|D2]; [|by right].
  rewrite D2. exact D1.
Qed.

Lemma evolves_refl m : evolves m m.
Proof. intros k. destruct (m !! k); [apply deepened_refl|done]. Qed.

Lemma evolves_trans m1 m2 m3 : evolves m1 m2 → evolves m2 m3 → evolves m1 m3.
Proof.
  intros H12 H23 k. specialize (H12 k). specialize (H23 k).
  destruct (m1 !! k), (m2 !! k), (m3 !! k); try done.
  eapply deepened_trans; eauto.
Qed.

Lemma evolves_set_depth m k z d :
  m !! k = Some z → evolves m (<[k := set_depth d z]> m).
Proof.
  intros Hk j. destruct (decide (j = k)) as [->|Hj].
  - rewrite Hk, lookup_insert_eq. split; [done|]. right. by exists d.
  - rewrite lookup_insert_ne by done.
    destruct (m !! j); [apply deepened_refl|done].
Qed.

Lemma assign_depth_evolves k d st : evolves st.1 (assign_depth k d st).1.
Proof.
  unfold assign_depth. destruct (st.1 !! k) eqn:Hk; simpl.
  - by apply evolves_set_depth.
  - apply evolves_refl.
Qed.

Lemma daughters_evolves rec d ds st o st' :
  (∀ x s o' s', rec x s = (o', s') → evolves s.1 s'.1) →
  daughters rec d ds st = (o, st') → evolves st.1 st'.1.
Proof.
  intros Hrec. revert st. induction ds as [|x ds IH]; intros st; simpl.
  - intros [= <- <-]. apply evolves_refl.
  - destruct (rec x st) as [[|e] s1] eqn:Hx.
    + intros Hd. eapply evolves_trans; [by eapply Hrec|].
      eapply evolves_trans; [apply (assign_depth_evolves x d)|by apply IH].
    + intros [= <- <-]. by eapply Hrec.
Qed.

Lemma _update_depths_evolves frames k d st o st' :
  _update_depths frames k d st = (o, st') → evolves st.1 st'.1.
Proof.
  revert k d st o st'. induction frames as [|frames IH]; intros k d st o st'.
  { intros [= <- <-]. apply evolves_refl. }
  simpl. destruct (st.1 !! k) as [m|] eqn:Hk.
  - destruct (depth m) as [|[n|]] eqn:Hd.
    + intros [= <- <-]. apply evolves_refl.
    + intros [= <- <-]. apply evolves_refl.
    + intros Hds. eapply evolves_trans; [by apply (evolves_set_depth _ k m d)|].
      eapply daughters_evolves in Hds; [exact Hds|].
      intros x s o' s'. apply IH.
  - intros [= <- <-]. apply evolves_refl.
Qed.

Lemma elem_of_pending m k :
  k ∈ pending m ↔ ∃ z, m !! k = Some z ∧ depth z = Bound None.
Proof.
  unfold pending. rewrite elem_of_dom. unfold is_Some.
  setoid_rewrite map_lookup_filter_Some. naive_solver.
Qed.

Lemma evolves_pending m m' : evolves m m' → pending m' ⊆ pending m.
Proof.
  intros He k. rewrite !elem_of_pending. intros (z' & Hk' & Hd').
  specialize (He k). rewrite Hk' in He.
  destruct (m !! k) as [z|]; [|done]. exists z. split; [done|].
  destruct He as [_ [He|[n He]]]; congruence.
Qed.

Lemma pending_set_depth m k z d :
  m !! k = Some z → depth z = Bound None →
  pending (<[k := set_depth d z]> m) ⊂ pending m.
Proof.
  intros Hk Hd. apply strict_spec_alt. split.
  - by apply evolves_pending, evolves_set_depth.
  - assert (k ∈ pending m) by (apply elem_of_pending; eauto).
    assert (k ∉ pending (<[k := set_depth d z]> m)); [|set_solver].
    rewrite elem_of_pending, lookup_insert_eq. by intros (? & [= <-] & ?).
Qed.

Lemma pending_size m : size (pending m) ≤ size m.
Proof.
  rewrite <- (size_dom (D := gset string) m). apply subseteq_size.
  intros k. rewrite elem_of_pending, elem_of_dom. intros (z & -> & _). eauto.
Qed.

(** Room enough: the pass is not refused when the stack has room for one
    call more than there are notes it can still enter. *)
Lemma daughters_no_overflow rec d ds st (n : nat) o st' :
  (∀ x s o' s', rec x s = (o', s') → evolves s.1 s'.1) →
  (∀ x s o' s', size (pending s.1) < n → rec x s = (o', s') →
                o' ≠ Raised RecursionError) →
  size (pending st.1) < n →
  daughters rec d ds st = (o, st') → o ≠ Raised RecursionError.
Proof.
  intros Hev Hrec. revert st. induction ds as [|x ds IH]; intros st Hn; simpl.
  - by intros [= <- _].
  - destruct (rec x st) as [[|e] s1] eqn:Hx.
    + apply IH. eapply Nat.le_lt_trans; [|exact Hn].
      apply subseteq_size, evolves_pending.
      eapply evolves_trans; [by eapply Hev|apply assign_depth_evolves].
    + intros [= <- _]. by eapply Hrec.
Qed.

Lemma _update_depths_no_overflow frames k d st o st' :
  size (pending st.1) < frames →
  _update_depths frames k d st = (o, st') → o ≠ Raised RecursionError.
Proof.
  revert k d st o st'.
  induction frames as [|frames IH]; intros k d st o st' Hn; [lia|].
  simpl. destruct (st.1 !! k) as [m|] eqn:Hk; [|by intros [= <- _]].
  destruct (depth m) as [|[n|]] eqn:Hd; [by intros [= <- _]|by intros [= <- _]|].
  apply daughters_no_overflow with (n := frames).
  - intros x s o' s'. apply _update_depths_evolves.
  - intros x s o' s'. apply IH.
  - simpl. pose proof (subset_size _ _ (pending_set_depth _ _ _ d Hk Hd)). lia.
Qed.

(** More room never changes a result that was not a refusal. *)
Lemma daughters_mono (rec rec' : string → store → outcome * store) d ds st r :
  (∀ x s r', rec x s = r' → r'.1 ≠ Raised RecursionError → rec' x s = r') →
  daughters rec d ds st = r → r.1 ≠ Raised RecursionError →
  daughters rec' d ds st = r.
Proof.
  intros Hrec. revert st. induction ds as [|x ds IH]; intros st; simpl; [done|].
  destruct (rec x st) as [[|e] s1] eqn:Hx.
  - rewrite (Hrec _ _ _ Hx) by done. apply IH.
  - intros <- He. by rewrite (Hrec _ _ _ Hx).
Qed.

Lemma _update_depths_mono frames frames' k d st r :
  frames ≤ frames' →
  _update_depths frames k d st = r → r.1 ≠ Raised RecursionError →
  _update_depths frames' k d st = r.
Proof.
  revert frames' k d st r.
  induction frames as [|frames IH]; intros frames' k d st r Hle.
  { by intros <- ?. }
  destruct frames' as [|frames']; [lia|]. simpl.
  destruct (st.1 !! k) as [m|]; [|done].
  destruct (depth m) as [|[n|]]; [done|done|].
  apply daughters_mono. intros x s r'. apply IH. lia.
Qed.

Lemma _update_depths_not_pending frames k d st o st' :
  _update_depths (S frames) k d st = (o, st') → k ∉ pending st'.1.
Proof.
  simpl. destruct (st.1 !! k) as [m|] eqn:Hk.
  - destruct (depth m) as [|[n|]] eqn:Hd.
    + intros [= <- <-]. rewrite elem_of_pending. intros (z & Hz & Hz'). congruence.
    + intros [= <- <-]. rewrite elem_of_pending. intros (z & Hz & Hz'). congruence.
    + intros Hds Hin.
      eapply daughters_evolves in Hds;
        [|intros x s o' s'; apply _update_depths_evolves].
      apply evolves_pending in Hds. apply Hds in Hin. simpl in Hin.
      apply elem_of_pending in Hin as (z & Hz & Hz').
      rewrite lookup_insert_eq in Hz. by injection Hz as <-.
  - intros [= <- <-]. simpl. rewrite elem_of_pending. intros (z & Hz & _). congruence.
Qed.

(** A pass that starts at a note it cannot enter changes no note. *)
Lemma _update_depths_noop frames k d st :
  k ∉ pending st.1 →
  ∃ o log, _update_depths (S frames) k d st = (o, (st.1, log)).
Proof.
  intros Hk. simpl. destruct (st.1 !! k) as [m|] eqn:Hm; [|eauto].
  destruct (depth m) as [|[n|]] eqn:Hd.
  - exists (Raised AttributeError), st.2. by destruct st.
  - exists Returned, st.2. by destruct st.
  - exfalso. apply Hk, elem_of_pending. eauto.
Qed.

(** ** finalize *)

Lemma sources_same_graph k zs zs' :
  Forall2 same_graph zs zs' → sources k zs = sources k zs'.
Proof.
  unfold sources. induction 1 as [|z z' zs zs' [Hz Hl] _ IH]; [done|].
  rewrite !filter_cons, Hl.
  case_decide; rewrite ?fmap_cons, ?list_to_set_cons, ?Hz, ?IH; done.
Qed.

Lemma zettels_same_graph m m' order :
  (∀ k, match m !! k, m' !! k with
        | Some z, Some z' => same_graph z z'
        | None, None => True
        | _, _ => False
        end) →
  Forall2 same_graph (zettels m order) (zettels m' order).
Proof.
  intros H. unfold zettels. induction order as [|k order IH]; [constructor|].
  cbn [omap list_omap]. specialize (H k).
  destruct (m !! k), (m' !! k); try done. by constructor.
Qed.

Lemma deepened_same_graph z z' : deepened z z' → same_graph z z'.
Proof.
  intros [H _]. unfold forget_depth in H. injection H as _ Hz Hl _ _ _.
  by split.
Qed.

(** The collection after [finalize], whichever way the call ended: the keys
    and their order are as before, and every note has its [backlinks]
    recomputed and at most its depth changed otherwise. *)
Lemma finalize_inv limit zk o zk' log :
  finalize limit zk = (o, zk', log) →
  zid_order zk' = zid_order zk
  ∧ evolves (_update_backlinks zk).1 (zid2zettel zk')
  ∧ root_zid ∉ pending (zid2zettel zk').
Proof.
  unfold finalize.
  destruct (_update_depths _ _ _ _) as [[|e] [m l]] eqn:Hd;
    intros [= <- <- <-]; simpl; (split; [done|]); split.
  - by apply _update_depths_evolves in Hd.
  - by apply _update_depths_not_pending in Hd.
  - by apply _update_depths_evolves in Hd.
  - by apply _update_depths_not_pending in Hd.
Qed.

Lemma finalize_lookup limit zk o zk' log k z' :
  finalize limit zk = (o, zk', log) →
  zid2zettel zk' !! k = Some z' →
  ∃ z, zid2zettel zk !! k = Some z
       ∧ zid z' = zid z ∧ links z' = links z
       ∧ backlinks z' = sources k (zettels (zid2zettel zk) (zid_order zk)).
Proof.
  intros Hf Hk. apply finalize_inv in Hf as (_ & He & _).
  specialize (He k). rewrite Hk, _update_backlinks_lookup in He.
  destruct (zid2zettel zk !! k) as [z|]; [|done]. simpl in He.
  exists z. split; [done|]. destruct He as [He _].
  unfold forget_depth in He. simpl in He. injection He as _ Hz Hl _ _ Hb.
  done.
Qed.

Lemma finalize_lookup_inv limit zk o zk' log k z :
  finalize limit zk = (o, zk', log) →
  zid2zettel zk !! k = Some z →
  ∃ z', zid2zettel zk' !! k = Some z' ∧ same_graph z z'.
Proof.
  intros Hf Hk. apply finalize_inv in Hf as (_ & He & _).
  specialize (He k). rewrite _update_backlinks_lookup, Hk in He. simpl in He.
  destruct (zid2zettel zk' !! k) as [z'|]; [|done].
  exists z'. split; [done|]. by apply deepened_same_graph in He.
Qed.

Lemma finalize_wf limit zk o zk' log :
  finalize limit zk = (o, zk', log) → wf zk → wf zk'.
Proof.
  intros Hf (Hnd & Hdom & Hzid).
  pose proof Hf as (Ho & _ & _)%finalize_inv.
  split; [by rewrite Ho|]. split.
  - intros k. rewrite Ho, Hdom. split.
    + intros [z Hz]. eapply finalize_lookup_inv in Hf as (z' & -> & _); eauto.
    + intros [z' Hz']. eapply finalize_lookup in Hf as (z & -> & _); eauto.
  - intros k z' Hz'. eapply finalize_lookup in Hf as (z & Hz & -> & _); eauto.
Qed.

Lemma add_zettel_wf zk z : wf zk → wf (add_zettel zk z).
Proof.
  intros (Hnd & Hdom & Hzid). unfold add_zettel, wf; simpl.
  destruct (zid2zettel zk !! zid z) as [z0|] eqn:Hz; split_and!.
  - done.
  - intros k. rewrite Hdom. destruct (decide (k = zid z)) as [->|Hk].
    + rewrite lookup_insert_eq, Hz. split; eauto.
    + by rewrite lookup_insert_ne.
  - intros k z1. destruct (decide (k = zid z)) as [->|Hk].
    + rewrite lookup_insert_eq. by intros [= <-].
    + rewrite lookup_insert_ne by done. apply Hzid.
  - apply NoDup_app. split_and!; [done| |apply NoDup_singleton].
    intros k Hk ->%list_elem_of_singleton.
    apply Hdom in Hk as [z1 Hz1]. congruence.
  - intros k. rewrite elem_of_app, list_elem_of_singleton, Hdom.
    destruct (decide (k = zid z)) as [->|Hk].
    + rewrite lookup_insert_eq. split; eauto.
    + rewrite lookup_insert_ne by done. naive_solver.
  - intros k z1. destruct (decide (k = zid z)) as [->|Hk].
    + rewrite lookup_insert_eq. by intros [= <-].
    + rewrite lookup_insert_ne by done. apply Hzid.
Qed.

Lemma add_zettels_wf zk zs : wf zk → wf (add_zettels zk zs).
Proof.
  intros H. unfold add_zettels.
  assert (wf {| zid2zettel := zid2zettel zk; zid_order := zid_order zk;
                _finalized := false |}) as H0 by exact H.
  revert H0. generalize {| zid2zettel := zid2zettel zk;
                           zid_order := zid_order zk; _finalized := false |}.
  induction zs as [|z zs IH]; intros zk0 H0; simpl; [done|].
  by apply IH, add_zettel_wf.
Qed.

Lemma new_Zettelkasten_wf zs : wf (new_Zettelkasten zs).
Proof.
  apply add_zettels_wf. split_and!; simpl.
  - constructor.
  - intros k. rewrite lookup_empty. split; [by intros ?%elem_of_nil|by intros [??]].
  - intros k z. by rewrite lookup_empty.
Qed.

Lemma set_backlinks_id z : set_backlinks (backlinks z) z = z.
Proof. by destruct z. Qed.

(** Recomputing the backlinks of a finalized collection changes nothing. *)
Lemma _update_backlinks_finalized limit zk o zk' log :
  finalize limit zk = (o, zk', log) →
  (_update_backlinks zk').1 = zid2zettel zk'.
Proof.
  intros Hf. apply map_eq. intros k. rewrite _update_backlinks_lookup.
  destruct (zid2zettel zk' !! k) as [z'|] eqn:Hk; [|done]. simpl. f_equal.
  destruct (finalize_lookup _ _ _ _ _ _ _ Hf Hk) as (z & Hz & _ & _ & Hbl).
  rewrite <- (set_backlinks_id z') at 2. f_equal. rewrite Hbl.
  pose proof Hf as (-> & _ & _)%finalize_inv.
  symmetry. apply sources_same_graph, zettels_same_graph. intros j.
  destruct (zid2zettel zk !! j) as [zj|] eqn:Hj.
  - by destruct (finalize_lookup_inv _ _ _ _ _ _ _ Hf Hj) as (zj' & -> & ?).
  - destruct (zid2zettel zk' !! j) as [zj'|] eqn:Hj'; [|done].
    destruct (finalize_lookup _ _ _ _ _ _ _ Hf Hj') as (? & ? & _). congruence.
Qed.

(** C2: [finalize] keeps every registered note under its key, and
    afterwards, for registered notes A and B, the id of A is in the
    backlinks of B exactly when the id of B occurs in the links of A; the
    backlinks of a note are the ids of the registered notes whose links
    mention it, whether or not the root reaches them, and however the call
    ends. *)
Theorem finalize_backlinks_exact limit zk :
  wf zk →
  ∃ o zk' log,
    finalize limit zk = (o, zk', log)
    ∧ zid_order zk' = zid_order zk
    ∧ (∀ k, zid2zettel zk !! k = None → zid2zettel zk' !! k = None)
    ∧ (∀ b zb,
         zid2zettel zk !! b = Some zb →
         ∃ zb', zid2zettel zk' !! b = Some zb'
                ∧ zid zb' = zid zb ∧ links zb' = links zb
                ∧ backlinks zb'
                  = sources b (zettels (zid2zettel zk) (zid_order zk))
                ∧ ∀ a za, zid2zettel zk !! a = Some za →
                          (a ∈ backlinks zb' ↔ b ∈ links za))
    ∧ (∀ a b za zb,
         zid2zettel zk' !! a = Some za → zid2zettel zk' !! b = Some zb →
         (zid za ∈ backlinks zb ↔ zid zb ∈ links za))
    ∧ (∀ b zb,
         zid2zettel zk' !! b = Some zb →
         backlinks zb
         = sources (zid zb) (zettels (zid2zettel zk') (zid_order zk'))).
Proof.
  intros Hwf. destruct (finalize limit zk) as [[o zk'] log] eqn:Hf.
  exists o, zk', log. split; [done|].
  pose proof (finalize_wf _ _ _ _ _ Hf Hwf) as (_ & Hdom' & Hzid').
  pose proof Hwf as (_ & Hdom & Hzid).
  assert (∀ b zb, zid2zettel zk' !! b = Some zb →
            backlinks zb
            = sources (zid zb) (zettels (zid2zettel zk') (zid_order zk')))
    as Hexact.
  { intros b zb Hb. rewrite (Hzid' _ _ Hb).
    pose proof (_update_backlinks_finalized _ _ _ _ _ Hf) as Hfix.
    pose proof (_update_backlinks_lookup zk' b) as Hl.
    rewrite Hfix, Hb in Hl. simpl in Hl. injection Hl as Hl.
    by rewrite Hl at 1. }
  assert (∀ a b za zb,
            zid2zettel zk' !! a = Some za → zid2zettel zk' !! b = Some zb →
            (zid za ∈ backlinks zb ↔ zid zb ∈ links za)) as Hiff.
  { intros a b za zb Ha Hb. rewrite (Hexact _ _ Hb), elem_of_sources. split.
    - intros (z & Hz & Hza & Hl).
      apply elem_of_zettels in Hz as (k & _ & Hk).
      assert (k = a) as ->
        by (rewrite <- (Hzid' _ _ Hk), <- (Hzid' _ _ Ha); done).
      congruence.
    - intros Hl. exists za. split_and!; [|done|done].
      apply elem_of_zettels. exists a. split; [|done]. apply Hdom'. eauto. }
  split_and!; [by apply finalize_inv in Hf as (? & _)| | |done|done].
  - intros k Hk. destruct (zid2zettel zk' !! k) as [z'|] eqn:Hk'; [|done].
    destruct (finalize_lookup _ _ _ _ _ _ _ Hf Hk') as (? & ? & _). congruence.
  - intros b zb Hb.
    destruct (finalize_lookup_inv _ _ _ _ _ _ _ Hf Hb) as (zb' & Hb' & Hzb & Hlb).
    destruct (finalize_lookup _ _ _ _ _ _ _ Hf Hb') as (z0 & Hz0 & _ & _ & Hbl).
    exists zb'. split_and!; [done|done|done|done|].
    intros a za Ha.
    destruct (finalize_lookup_inv _ _ _ _ _ _ _ Hf Ha) as (za' & Ha' & Hza & Hla).
    rewrite <- (Hzid _ _ Ha), <- (Hzid _ _ Hb), Hza, Hzb, Hla.
    by apply (Hiff a b).
Qed.

(** C10: [finalize] keeps the keys of the id-to-note mapping, and afterwards
    every id in the backlinks of a note of the collection is one of them. *)
Theorem finalize_backlinks_registered limit zk :
  wf zk →
  ∃ o zk' log,
    finalize limit zk = (o, zk', log)
    ∧ (∀ k, is_Some (zid2zettel zk' !! k) ↔ is_Some (zid2zettel zk !! k))
    ∧ ∀ b zb x,
        zid2zettel zk' !! b = Some zb → x ∈ backlinks zb →
        is_Some (zid2zettel zk' !! x) ∧ is_Some (zid2zettel zk !! x).
Proof.
  intros Hwf. destruct (finalize limit zk) as [[o zk'] log] eqn:Hf.
  exists o, zk', log. split; [done|]. split.
  - intros k. split.
    + intros [z' Hz']. destruct (finalize_lookup _ _ _ _ _ _ _ Hf Hz') as (z & -> & _).
      eauto.
    + intros [z Hz]. destruct (finalize_lookup_inv _ _ _ _ _ _ _ Hf Hz) as (z' & -> & _).
      eauto.
  - intros b zb x Hb Hx. destruct Hwf as (_ & _ & Hzid).
    destruct (finalize_lookup _ _ _ _ _ _ _ Hf Hb) as (z & _ & _ & _ & Hbl).
    rewrite Hbl in Hx. apply elem_of_sources in Hx as (za & Hza & <- & _).
    apply elem_of_zettels in Hza as (k & _ & Hk).
    rewrite (Hzid _ _ Hk).
    destruct (finalize_lookup_inv _ _ _ _ _ _ _ Hf Hk) as (z' & -> & _). eauto.
Qed.

(** C4: a second [finalize] with no registration in between leaves every
    note, its backlinks and its depth included, as the first one left it,
    however the two calls end and whatever room the stack has for each. *)
Theorem finalize_idempotent limit limit' zk :
  ∃ o1 zk1 log1,
    finalize limit zk = (o1, zk1, log1)
    ∧ ∃ o2 zk2 log2,
        finalize limit' zk1 = (o2, zk2, log2)
        ∧ zid2zettel zk2 = zid2zettel zk1
        ∧ zid_order zk2 = zid_order zk1.
Proof.
  destruct (finalize limit zk) as [[o1 zk1] log1] eqn:Hf.
  exists o1, zk1, log1. split; [done|].
  pose proof (_update_backlinks_finalized _ _ _ _ _ Hf) as Hfix.
  pose proof Hf as (_ & _ & Hroot)%finalize_inv.
  rewrite <- Hfix in Hroot.
  destruct (_update_depths_noop limit' root_zid 0 _ Hroot) as (o2 & log2 & Hd).
  unfold finalize. rewrite Hd, Hfix.
  destruct o2 as [|e]; eauto 10.
Qed.

(** The messages of the backlink pass. *)
Lemma add_backlink_None src st l k :
  (add_backlink src st l).1 !! k = None ↔ st.1 !! k = None.
Proof. rewrite add_backlink_lookup. by rewrite fmap_None. Qed.

Lemma add_backlinks_of_None st z k :
  (add_backlinks_of st z).1 !! k = None ↔ st.1 !! k = None.
Proof.
  unfold add_backlinks_of. rewrite add_backlinks_lookup. by rewrite fmap_None.
Qed.

Lemma add_backlinks_of_log st z :
  (add_backlinks_of st z).2 = st.2 ++ dangling st.1 z.
Proof.
  unfold add_backlinks_of, dangling. generalize (links z) as ls.
  intros ls. revert st. induction ls as [|l ls IH]; intros st; cbn [foldl].
  - by rewrite filter_nil, fmap_nil, app_nil_r.
  - rewrite IH, filter_cons.
    rewrite (list_filter_iff _ (λ l0, st.1 !! l0 = None))
      by (intros j; apply add_backlink_None).
    unfold add_backlink at 1. destruct (st.1 !! l) eqn:Hl; simpl.
    + done.
    + by rewrite <- app_assoc.
Qed.

Lemma add_backlinks_log zs st :
  (foldl add_backlinks_of st zs).2 = st.2 ++ (zs ≫= dangling st.1).
Proof.
  revert st. induction zs as [|z zs IH]; intros st; cbn [foldl].
  - by rewrite app_nil_r.
  - rewrite IH, add_backlinks_of_log, <- app_assoc. f_equal.
    rewrite bind_cons. f_equal. apply list_bind_ext; [|done].
    intros z'. unfold dangling. f_equal. apply list_filter_iff.
    intros j. apply add_backlinks_of_None.
Qed.

(** The backlink pass logs one message for each occurrence of an
    unregistered id in the links of a registered note, and nothing else. *)
Lemma _update_backlinks_log zk :
  (_update_backlinks zk).2
  = zettels (zid2zettel zk) (zid_order zk) ≫= dangling (zid2zettel zk).
Proof.
  unfold _update_backlinks. rewrite add_backlinks_log. simpl.
  rewrite zettels_fmap.
  induction (zettels (zid2zettel zk) (zid_order zk)) as [|z zs IH]; [done|].
  rewrite fmap_cons, !bind_cons, IH. f_equal.
  unfold dangling. simpl. f_equal. apply list_filter_iff.
  intros j. by rewrite lookup_fmap, fmap_None.
Qed.

(** ** Concrete collections *)

(** C1, at its own example. On the notes as [Zettel] constructs them the
    depth pass stops with [AttributeError] at the root and no note gets a
    depth, whatever room the stack has. With [depth] bound to [None]
    beforehand and room for two nested calls or more, the pass returns, and
    the root, first given 0, ends with 2: the assignment after the recursive
    call overwrites the depth of a target that already had one. *)
Theorem depth_first_assignment_overwritten (limit : nat) :
  report limit (new_Zettelkasten two_cycle)
  = (Raised AttributeError,
     [(root_zid, [other_zid], Absent); (other_zid, [root_zid], Absent)],
     [])
  ∧ report (2 + limit) (new_Zettelkasten (preset <$> two_cycle))
    = (Returned,
       [(root_zid, [other_zid], Bound (Some 2));
        (other_zid, [root_zid], Bound (Some 1))],
       []).
Proof. split; vm_compute; reflexivity. Qed.

(** C5, on a ring through the root. As constructed, [finalize] is left by
    [AttributeError] and the three notes, all reachable, hold no depth,
    whatever room the stack has. And with depths bound to [None] beforehand
    and room for a nested call: a note registered after a first [finalize]
    keeps [None] although the root reaches it, because the second pass stops
    at the root's old depth. *)
Theorem cycle_notes_left_without_depth (limit : nat) :
  report limit (new_Zettelkasten three_cycle)
  = (Raised AttributeError,
     [(root_zid, [third_zid], Absent);
      (other_zid, [root_zid], Absent);
      (third_zid, [other_zid], Absent)],
     [])
  ∧ report_after_registering (1 + limit)
      [preset (note root_zid ("see " +:+ other_zid))]
      [preset (note other_zid ("back to " +:+ root_zid))]
    = (Returned,
       [(root_zid, [other_zid], Bound (Some 0));
        (other_zid, [root_zid], Bound None)],
       []).
Proof. split; vm_compute; reflexivity. Qed.

(** C9, on a root note with a dangling link. The backlink pass logs its one
    message and adds no backlink; then the depth pass reads the root's
    [depth], which was never bound, and [finalize] is left by
    [AttributeError], whatever room the stack has. *)
Theorem dangling_link_finalize_aborts (limit : nat) :
  report limit (new_Zettelkasten dangling_root)
  = (Raised AttributeError,
     [(root_zid, [], Absent)],
     [not_found missing_zid]).
Proof. vm_compute; reflexivity. Qed.

(** A chain longer than the stack has room for: the ring of three notes
    with room for one nested call. The call for the third note is refused,
    [finalize] is left by [RecursionError], and the third note keeps [None]
    although the root reaches it. *)
Example deep_chain_overflows :
  report 1 (new_Zettelkasten (preset <$> three_cycle))
  = (Raised RecursionError,
     [(root_zid, [third_zid], Bound (Some 0));
      (other_zid, [root_zid], Bound (Some 1));
      (third_zid, [other_zid], Bound None)],
     []).
Proof. vm_compute; reflexivity. Qed.

Lemma finalize_backlinks_exact_witness :
  let zk := new_Zettelkasten two_cycle in
  wf zk
  ∧ ∃ zb', zid2zettel (finalize 0 zk).1.2 !! other_zid = Some zb'
           ∧ root_zid ∈ backlinks zb'.
Proof.
  intros zk. split; [apply new_Zettelkasten_wf|].
  destruct (finalize_backlinks_exact 0 zk (new_Zettelkasten_wf two_cycle))
    as (o & zk' & log & Hf & _ & _ & Hkept & _).
  destruct (Hkept other_zid (note other_zid ("back to " +:+ root_zid)))
    as (zb' & Hb' & _ & _ & _ & Hiff); [by vm_compute|].
  exists zb'. rewrite Hf. split; [exact Hb'|].
  apply (Hiff root_zid (note root_zid ("see " +:+ other_zid)));
    [by vm_compute|].
  apply (bool_decide_unpack _). by vm_compute.
Defined.

Lemma finalize_backlinks_registered_witness :
  let zk := new_Zettelkasten two_cycle in
  let zk' := (finalize 0 zk).1.2 in
  wf zk
  ∧ (∃ zb, zid2zettel zk' !! other_zid = Some zb ∧ root_zid ∈ backlinks zb)
  ∧ is_Some (zid2zettel zk' !! root_zid).
Proof.
  intros zk zk'.
  assert (∃ zb, zid2zettel zk' !! other_zid = Some zb
                ∧ root_zid ∈ backlinks zb) as Hex.
  { eexists. split; [vm_compute; reflexivity|].
    apply (bool_decide_unpack _). by vm_compute. }
  split; [apply new_Zettelkasten_wf|]. split; [exact Hex|].
  destruct Hex as (zb & Hb & Hx).
  destruct (finalize_backlinks_registered 0 zk (new_Zettelkasten_wf two_cycle))
    as (o & zk1 & log & Hf & _ & Hreg).
  assert (zk' = zk1) as Heq by (unfold zk'; by rewrite Hf).
  rewrite Heq in *. exact (proj1 (Hreg other_zid zb root_zid Hb Hx)).
Defined.

(** ** Note construction *)

Lemma str_app_cons c s t : String c s +:+ t = String c (s +:+ t).
Proof. done. Qed.

Lemma str_app_nil_r s : s +:+ EmptyString = s.
Proof. induction s as [|c s IH]; [done|]. by rewrite str_app_cons, IH. Qed.

Lemma str_app_assoc s t u : (s +:+ t) +:+ u = s +:+ (t +:+ u).
Proof. induction s as [|c s IH]; [done|]. by rewrite !str_app_cons, IH. Qed.

Lemma prefix_empty s : String.prefix EmptyString s = true.
Proof. by destruct s. Qed.

Lemma prefix_app p s : String.prefix p (p +:+ s) = true.
Proof.
  induction p as [|c p IH]; [apply prefix_empty|].
  rewrite str_app_cons. simpl. by destruct (ascii_dec c c).
Qed.

Lemma contains_unfold sub s :
  Py.contains sub s
  = String.prefix sub s
    || match s with EmptyString => false | String _ r => Py.contains sub r end.
Proof. by destruct s. Qed.

Lemma contains_app sub s : Py.contains sub (sub +:+ s) = true.
Proof. by rewrite contains_unfold, prefix_app. Qed.

Lemma foldl_analyze_line_title z ls :
  title (foldl analyze_line z ls)
  = match last (filter (λ l, Py.startswith l "# " = true) ls) with
    | Some line => heading_text line
    | None => title z
    end.
Proof.
  revert z. induction ls as [|l ls IH]; intros z; cbn [foldl]; [done|].
  rewrite IH, filter_cons. case_decide as Hl.
  - rewrite last_cons. destruct (last _); [done|].
    unfold analyze_line; simpl. by rewrite Hl.
  - destruct (last _); [done|].
    unfold analyze_line; simpl. by destruct (Py.startswith l "# ").
Qed.

Lemma split_go_plain sep cur s :
  Py.contains sep s = false → Py.split_go sep 0 cur s = [cur +:+ s].
Proof.
  revert cur. induction s as [|c s IH]; intros cur; simpl.
  - by rewrite str_app_nil_r.
  - intros [Hp Hc]%orb_false_iff. rewrite Hp, (IH _ Hc).
    unfold Py.snoc. by rewrite str_app_assoc.
Qed.

Lemma startswith_marker line :
  Py.startswith line "# " = true → line = "# " +:+ str_drop 2 line.
Proof.
  unfold Py.startswith. destruct line as [|a [|b rest]]; [done| |].
  - cbn [String.prefix]. by destruct (ascii_dec "#" a).
  - cbn [String.prefix str_drop]. destruct (ascii_dec "#" a) as [<-|]; [|done].
    by destruct (ascii_dec " " b) as [<-|].
Qed.

Lemma heading_text_plain rest :
  Py.contains "# " rest = false → heading_text ("# " +:+ rest) = Py.strip rest.
Proof.
  intros Hrest. unfold heading_text, Py.split.
  change ("# " +:+ rest) with (String "#" (String " " rest)). cbn.
  rewrite prefix_empty.
  rewrite (split_go_plain "# " EmptyString rest Hrest). reflexivity.
Qed.

(** C6, as the code has it: the title comes from the last line that begins
    with the marker. When the rest of that line holds no further marker the
    title is that rest, stripped; when no line begins with the marker the
    title is the empty string. *)
Theorem title_is_last_heading name content :
  match last (filter (λ l, Py.startswith l "# " = true)
                (Py.readlines content)) with
  | Some line =>
      line = "# " +:+ str_drop 2 line
      ∧ (Py.contains "# " (str_drop 2 line) = false →
         title (new_Zettel name content) = Py.strip (str_drop 2 line))
  | None => title (new_Zettel name content) = EmptyString
  end.
Proof.
  unfold new_Zettel, analyze_file. rewrite foldl_analyze_line_title.
  destruct (last _) as [line|] eqn:Hlast; [|done].
  assert (Py.startswith line "# " = true) as Hstart.
  { apply last_Some in Hlast as [l' Hl'].
    assert (line ∈ filter (λ l, Py.startswith l "# " = true)
                     (Py.readlines content)) as Hin
      by (rewrite Hl'; apply elem_of_app; right; by left).
    by apply list_elem_of_filter in Hin as [? _]. }
  pose proof (startswith_marker line Hstart) as Hline.
  split; [done|]. intros Hrest. rewrite Hline at 1.
  by apply heading_text_plain.
Qed.

Lemma title_is_last_heading_witness :
  let two := "# One" +:+ Py.nl +:+ "# Two" +:+ Py.nl in
  last (filter (λ l, Py.startswith l "# " = true) (Py.readlines two))
  = Some ("# Two" +:+ Py.nl)
  ∧ Py.contains "# " (str_drop 2 ("# Two" +:+ Py.nl)) = false
  ∧ title (new_Zettel "n.md" two) = Py.strip ("Two" +:+ Py.nl).
Proof.
  intros two.
  assert (last (filter (λ l, Py.startswith l "# " = true) (Py.readlines two))
          = Some ("# Two" +:+ Py.nl)) as Hlast by (by vm_compute).
  split; [exact Hlast|]. split; [reflexivity|].
  pose proof (title_is_last_heading "n.md" two) as H.
  rewrite Hlast in H. destruct H as [_ H]. apply H. reflexivity.
Defined.

(** C6 as stated fails: with two heading lines the title is taken from the
    second, not the first; and a second marker on the line cuts the text. *)
Lemma title_is_not_first_heading :
  let two := "# One" +:+ Py.nl +:+ "# Two" +:+ Py.nl in
  let cut := "# A # B" +:+ Py.nl in
  title_of_first_heading two = "One"
  ∧ title (new_Zettel "20230101000001.md" two) = "Two"
  ∧ title (new_Zettel "20230101000001.md" two) ≠ title_of_first_heading two
  ∧ title (new_Zettel "20230101000001.md" cut) = "A".
Proof. vm_compute. split_and!; done. Qed.

(** ** Tags *)

Lemma tag_findall_go_token t cur rest :
  Py.has_space t = false →
  tag_findall_go (Some cur) (t +:+ rest) = tag_findall_go (Some (cur +:+ t)) rest.
Proof.
  revert cur. induction t as [|c t IH]; intros cur; simpl.
  - intros _. by rewrite str_app_nil_r.
  - intros [Hc Ht]%orb_false_iff. rewrite Hc, (IH _ Ht).
    unfold Py.snoc. by rewrite str_app_assoc.
Qed.

Lemma tag_findall_go_hashed l :
  Forall (λ t, Py.has_space t = false) l →
  tag_findall_go None (Py.join " " (hash <$> l) +:+ Py.nl) = hash <$> l.
Proof.
  induction 1 as [|t l Ht Hl IH]; [done|].
  assert (∀ rest, tag_findall_go None (hash t +:+ rest)
                  = tag_findall_go (Some (hash t)) rest) as Hhead.
  { intros rest. unfold hash. rewrite str_app_assoc.
    change (tag_findall_go (Some "#") (t +:+ rest)
            = tag_findall_go (Some ("#" +:+ t)) rest).
    by apply tag_findall_go_token. }
  destruct l as [|t' l].
  - cbn [fmap list_fmap Py.join]. rewrite Hhead. done.
  - change (Py.join " " (hash <$> t :: t' :: l))
      with (hash t +:+ " " +:+ Py.join " " (hash <$> t' :: l)).
    rewrite !str_app_assoc, Hhead.
    change (hash t :: tag_findall_go None
                        (Py.join " " (hash <$> t' :: l) +:+ Py.nl)
            = hash <$> t :: t' :: l).
    by rewrite IH.
Qed.

Lemma drop1_hash (l : list string) : drop1 <$> (hash <$> l) = l.
Proof.
  induction l as [|t l IH]; [done|]. rewrite !fmap_cons, IH. done.
Qed.

Lemma sorted_no_space (T : gset string) :
  (∀ t, t ∈ T → Py.has_space t = false) →
  Forall (λ t, Py.has_space t = false) (Py.sorted T).
Proof.
  intros HT. apply Forall_forall. intros t Ht. apply HT.
  unfold Py.sorted in Ht. rewrite merge_sort_Permutation in Ht.
  by apply elem_of_elements in Ht.
Qed.

Lemma read_tags__format_tags (T : gset string) :
  (∀ t, t ∈ T → Py.has_space t = false) →
  read_tags (_format_tags T) = T.
Proof.
  intros HT. unfold read_tags, _format_tags, tag_findall.
  change (tag_findall_go None
            ("Tags: " +:+ Py.join " " (hash <$> Py.sorted T) +:+ Py.nl))
    with (tag_findall_go None (Py.join " " (hash <$> Py.sorted T) +:+ Py.nl)).
  rewrite tag_findall_go_hashed.
  - rewrite drop1_hash. unfold Py.sorted. rewrite merge_sort_Permutation.
    apply list_to_set_elements_L.
  - by apply sorted_no_space.
Qed.

Lemma has_newline_app a b :
  Py.has_newline (a +:+ b) = Py.has_newline a || Py.has_newline b.
Proof.
  induction a as [|c a IH]; [done|].
  rewrite str_app_cons. simpl. by rewrite IH, orb_assoc.
Qed.

Lemma no_space_no_newline s : Py.has_space s = false → Py.has_newline s = false.
Proof.
  induction s as [|c s IH]; [done|]. simpl.
  intros [Hc Hs]%orb_false_iff. rewrite (IH Hs), orb_false_r.
  by destruct (Ascii.eqb_spec c "010") as [->|].
Qed.

Lemma join_no_newline l :
  Forall (λ t, Py.has_space t = false) l →
  Py.has_newline (Py.join " " (hash <$> l)) = false.
Proof.
  induction 1 as [|t l Ht Hl IH]; [done|]. destruct l as [|t' l].
  - cbn [fmap list_fmap Py.join]. unfold hash.
    by rewrite has_newline_app, (no_space_no_newline _ Ht).
  - change (Py.join " " (hash <$> t :: t' :: l))
      with (hash t +:+ " " +:+ Py.join " " (hash <$> t' :: l)).
    unfold hash at 1.
    by rewrite !has_newline_app, (no_space_no_newline _ Ht), IH.
Qed.

Lemma lines_go_single cur s :
  Py.has_newline s = false →
  Py.lines_go cur (s +:+ Py.nl) = [cur +:+ s +:+ Py.nl].
Proof.
  revert cur. induction s as [|c s IH]; intros cur; simpl.
  - intros _. done.
  - intros [Hc Hs]%orb_false_iff. rewrite str_app_cons. simpl.
    rewrite Hc, (IH _ Hs). unfold Py.snoc. by rewrite str_app_assoc.
Qed.

Lemma readlines__format_tags (T : gset string) :
  (∀ t, t ∈ T → Py.has_space t = false) →
  Py.readlines (_format_tags T) = [_format_tags T].
Proof.
  intros HT. unfold Py.readlines, _format_tags.
  rewrite <- str_app_assoc. rewrite lines_go_single; [done|].
  rewrite has_newline_app. by rewrite join_no_newline by by apply sorted_no_space.
Qed.

(** C8, for tags without white space: the formatted line passes the test of
    the tag parser and parses back to the same set, also as the only line of
    a note; and [{a, b}] is formatted as [Tags: #a #b] with its line end. *)
Theorem tags_round_trip name (T : gset string) :
  (∀ t, t ∈ T → Py.has_space t = false) →
  Py.contains "tags: " (Py.lower (_format_tags T)) = true
  ∧ read_tags (_format_tags T) = T
  ∧ tags (new_Zettel name (_format_tags T)) = T
  ∧ _format_tags {[ "a"; "b" ]} = "Tags: #a #b" +:+ Py.nl.
Proof.
  intros HT.
  assert (Py.contains "tags: " (Py.lower (_format_tags T)) = true) as Hc.
  { unfold _format_tags.
    change (Py.lower ("Tags: " +:+ ?X)) with ("tags: " +:+ Py.lower X).
    apply contains_app. }
  split_and!; [done|by apply read_tags__format_tags| |by vm_compute].
  unfold new_Zettel, analyze_file. rewrite readlines__format_tags by done.
  cbn [foldl]. unfold analyze_line. cbn [tags]. rewrite Hc.
  by apply read_tags__format_tags.
Qed.

Lemma tags_round_trip_witness :
  (∀ t, t ∈ ({[ "a"; "b" ]} : gset string) → Py.has_space t = false)
  ∧ read_tags (_format_tags {[ "a"; "b" ]}) = {[ "a"; "b" ]}.
Proof.
  assert (∀ t, t ∈ ({[ "a"; "b" ]} : gset string) → Py.has_space t = false) as H.
  { intros t [->%elem_of_singleton| ->%elem_of_singleton]%elem_of_union;
      reflexivity. }
  split; [exact H|].
  exact (proj1 (proj2 (tags_round_trip EmptyString {[ "a"; "b" ]} H))).
Defined.

(** C8 as stated fails for a tag that contains a space: the parser stops the
    token at the space. *)
Lemma tag_with_space_not_restored :
  _format_tags {[ "a b" ]} = "Tags: #a b" +:+ Py.nl
  ∧ read_tags (_format_tags {[ "a b" ]}) = {[ "a" ]}
  ∧ read_tags (_format_tags {[ "a b" ]}) ≠ {[ "a b" ]}.
Proof.
  split_and!; [by vm_compute|by vm_compute|].
  intros H. apply (f_equal elements) in H. vm_compute in H. discriminate.
Qed.

(** ** The rewrite pipeline *)

Section transformer_facts.

Variable zk : Zettelkasten.
Variable tag_transformer : gset string → gset string.
Variable _read_tags : string → gset string.
Variable autogen_link_sub : string → string.
Variable id_link_findall : string → list string.
Variable note_id_findall : string → list string.
Variable rel_path : string → string → string.
Variable note : Zettel.

Abbreviation step :=
  (transform_line zk tag_transformer _read_tags autogen_link_sub
     id_link_findall note_id_findall rel_path note).

Lemma dashes_not_equals t :
  Py.startswith t "---" = true → Py.startswith t "===" = false.
Proof.
  unfold Py.startswith. destruct t as [|c t]; [done|].
  destruct c as [[] [] [] [] [] [] [] []]; by cbn.
Qed.

Lemma alter_set_text_twice (a b : string) i (L : list MarkdownLine) :
  alter (set_text a) i (alter (set_text b) i L) = alter (set_text a) i L.
Proof.
  apply list_eq. intros j. destruct (decide (i = j)) as [<-|Hne].
  - rewrite !list_lookup_alter_eq. by destruct (L !! i).
  - by rewrite !list_lookup_alter_ne.
Qed.

(** C7, as the code has it. A line of index above 1, outside code
    regions, that starts with three equals signs (three dashes), after a
    line whose text is not blank: the last emitted line is retracted and
    the text of the line becomes the level-1 (level-2) heading made of the
    previous line's text, whatever the later rules of the iteration do with
    it: the iteration goes on as it does for a line with that heading as
    its text when the last emitted line is gone. Where no later rule
    touches the heading, it is emitted as it is. *)
Theorem setext_heading_rewritten (marker mark : string) i st l prev :
  (marker = "===" ∧ mark = "# ") ∨ (marker = "---" ∧ mark = "## ") →
  1 < i →
  md_lines st !! i = Some l →
  md_lines st !! (i - 1) = Some prev →
  is_code_block l = false →
  Py.startswith (text l) marker = true →
  Py.truthy (Py.strip (text prev)) = true →
  step i st
  = step i {| md_lines := alter (set_text (mark +:+ text prev)) i (md_lines st);
              out_lines := removelast (out_lines st) |}
  ∧ ((tags note ≠ ∅ ∨ Py.startswith (text prev) "# " = false
      ∨ tag_transformer ∅ = ∅) →
     Py.contains "tags: " (Py.lower (mark +:+ text prev)) = false →
     autogen_link_sub (mark +:+ text prev) = mark +:+ text prev →
     id_link_findall (mark +:+ text prev) = [] →
     in_backlinks_section l = false →
     (is_last_line l = false ∨ get_backlinks zk (zid note) = ∅) →
     step i st
     = Ok {| md_lines := alter (set_text (mark +:+ text prev)) i (md_lines st);
             out_lines := removelast (out_lines st) ++ [mark +:+ text prev] |}).
Proof.
  intros Hm Hi Hl Hprev Hcode Hstart Hblank.
  assert ((1 <? i) = true) as Hi1 by (by apply Nat.ltb_lt).
  assert (Py.startswith (mark +:+ text prev) "===" = false
          ∧ Py.startswith (mark +:+ text prev) "---" = false) as [Hne Hnd]
    by (destruct Hm as [[_ ->]|[_ ->]]; by split).
  assert (∀ out,
    step i {| md_lines := alter (set_text (mark +:+ text prev)) i (md_lines st);
              out_lines := out |}
    = (let t := mark +:+ text prev in
       let out :=
         if bool_decide (tags note = ∅) && (1 <=? i)
            && Py.startswith (text prev) "# " && negb (is_code_block l)
            && negb (bool_decide (tag_transformer ∅ = ∅))
         then out ++ [Py.nl; _format_tags (tag_transformer ∅)] else out in
       let tag_line :=
         Py.contains "tags: " (Py.lower t) && negb (is_code_block l) in
       let new_tags := tag_transformer (_read_tags t) in
       if tag_line && bool_decide (new_tags = ∅) then
         Ok {| md_lines := alter (set_text t) i (md_lines st);
               out_lines := out |}
       else
         let t := if tag_line then _format_tags new_tags else t in
         let t := autogen_link_sub t in
         match add_new_links zk note_id_findall rel_path note
                 (id_link_findall t) t with
         | Raise e => Raise e
         | Ok t =>
             let out := if in_backlinks_section l then out else out ++ [t] in
             Ok {| md_lines := alter (set_text t) i (md_lines st);
                   out_lines := add_backlinks_section zk rel_path note l out |}
         end)) as Hrhs.
  { intros out. unfold transform_line, underlines. cbn [md_lines out_lines].
    rewrite list_lookup_alter_eq, Hl, list_lookup_alter_ne, Hprev by lia.
    cbn [fmap option_fmap option_map default id].
    change (text (set_text ?a ?b)) with a.
    change (is_code_block (set_text ?a ?b)) with (is_code_block b).
    change (in_backlinks_section (set_text ?a ?b))
      with (in_backlinks_section b).
    change (add_backlinks_section zk rel_path note (set_text ?a ?b))
      with (add_backlinks_section zk rel_path note b).
    rewrite Hcode. cbn [andb negb].
    rewrite Hne, !andb_false_r. cbn [andb]. cbv beta iota zeta.
    rewrite Hnd, !andb_false_r. cbn [andb]. cbv beta iota zeta.
    destruct (_ && bool_decide (tag_transformer _ = ∅)) eqn:Hq.
    - by rewrite alter_set_text_twice.
    - destruct (add_new_links _ _ _ _ _ _) as [t'|e]; [|done].
      by rewrite alter_set_text_twice. }
  assert (step i st
          = step i {| md_lines := alter (set_text (mark +:+ text prev)) i
                                    (md_lines st);
                      out_lines := removelast (out_lines st) |}) as Heq.
  { rewrite Hrhs. unfold transform_line. rewrite Hl, Hprev.
    cbn [fmap option_fmap option_map default id].
    rewrite Hcode. cbn [andb]. unfold underlines.
    rewrite Hi1, Hcode, Hblank. cbn [negb andb].
    destruct Hm as [[-> ->]|[-> ->]].
    - rewrite Hstart. cbn [andb]. cbv beta iota zeta.
      change (Py.startswith ("# " +:+ text prev) "---") with false.
      cbn [andb]. cbv beta iota zeta. reflexivity.
    - rewrite (dashes_not_equals _ Hstart). cbn [andb]. cbv beta iota zeta.
      rewrite Hstart. cbn [andb]. cbv beta iota zeta. reflexivity. }
  split; [exact Heq|].
  intros Hins Htags Hsub Hlinks Hsec Hlast.
  assert (bool_decide (tags note = ∅) && (1 <=? i)
          && Py.startswith (text prev) "# " && negb (is_code_block l)
          && negb (bool_decide (tag_transformer ∅ = ∅)) = false) as Hnoins.
  { destruct Hins as [H|[H|H]].
    - by rewrite (bool_decide_eq_false_2 _ H).
    - by rewrite H, !andb_false_r.
    - by rewrite (bool_decide_eq_true_2 _ H), !andb_false_r. }
  assert (∀ out, add_backlinks_section zk rel_path note l out = out) as Hend.
  { intros out. unfold add_backlinks_section.
    destruct Hlast as [-> | Hnone]; [done|].
    destruct (is_last_line l); [|done].
    by rewrite (bool_decide_eq_true_2 _ Hnone). }
  rewrite Heq, Hrhs. cbv zeta.
  rewrite Hnoins, Htags. cbn [andb]. rewrite Hsub, Hlinks.
  cbn [add_new_links]. by rewrite Hsec, Hend.
Qed.

End transformer_facts.

(** ** The pipeline on concrete notes *)

Lemma setext_heading_rewritten_witness :
  1 < 2
  ∧ transform_line (new_Zettelkasten []) id read_tags strip_autogen bare_links
      id_findall same_directory (new_Zettel "20230101000001.md" setext_note)
      2 setext_state
    = Ok {| md_lines :=
              alter (set_text ("# " +:+ "Title" +:+ Py.nl)) 2
                (md_lines setext_state);
            out_lines := ["x" +:+ Py.nl; "# " +:+ "Title" +:+ Py.nl] |}.
Proof.
  split; [lia|].
  apply (setext_heading_rewritten (new_Zettelkasten []) id read_tags
           strip_autogen bare_links id_findall same_directory
           (new_Zettel "20230101000001.md" setext_note) "===" "# " 2
           setext_state
           {| text := "===" +:+ Py.nl; is_code_block := false;
              current_section := []; is_last_line := true |}
           {| text := "Title" +:+ Py.nl; is_code_block := false;
              current_section := []; is_last_line := false |}).
  - left. split; reflexivity.
  - lia.
  - reflexivity.
  - reflexivity.
  - reflexivity.
  - reflexivity.
  - reflexivity.
  - right. right. reflexivity.
  - reflexivity.
  - reflexivity.
  - reflexivity.
  - reflexivity.
  - right. reflexivity.
Defined.

(** C7 as stated fails: a line of two equals signs consists solely of that
    character, lies outside code regions and follows a non-blank line, yet
    nothing is retracted and no heading is made; the same holds for three
    equals signs on the second line of the file. And under a level-2 heading
    named Backlinks the underline retracts the last line that was emitted,
    here the title of the note, and the heading is dropped with the rest of
    that section. *)
Lemma short_underline_not_rewritten :
  let short := "x" +:+ Py.nl +:+ "Title" +:+ Py.nl +:+ "==" +:+ Py.nl in
  let early := "Title" +:+ Py.nl +:+ "===" +:+ Py.nl in
  let stripped :=
    "# A" +:+ Py.nl +:+ "## Backlinks" +:+ Py.nl +:+ "foo" +:+ Py.nl
    +:+ "===" +:+ Py.nl in
  markdown_reader short !! 2
  = Some {| text := "==" +:+ Py.nl; is_code_block := false;
            current_section := []; is_last_line := true |}
  ∧ only_repeated "=" ("==" +:+ Py.nl) = true
  ∧ Py.truthy (Py.strip ("Title" +:+ Py.nl)) = true
  ∧ pipeline (new_Zettelkasten []) "20230101000001.md" short = Ok short
  ∧ markdown_reader early !! 1
    = Some {| text := "===" +:+ Py.nl; is_code_block := false;
              current_section := []; is_last_line := true |}
  ∧ only_repeated "=" ("===" +:+ Py.nl) = true
  ∧ pipeline (new_Zettelkasten []) "20230101000001.md" early = Ok early
  ∧ markdown_reader stripped !! 3
    = Some {| text := "===" +:+ Py.nl; is_code_block := false;
              current_section := ["A"; "Backlinks"]; is_last_line := true |}
  ∧ pipeline (new_Zettelkasten []) "20230101000001.md" stripped
    = Ok EmptyString.
Proof. vm_compute. split_and!; reflexivity. Qed.

(** C3, at a failing input. The last line of the note is a tag line that
    yields no tags: the iteration ends at [continue] before the backlinks
    section is written, so the first run gives the text without it. The
    second run, on that text, writes the section. *)
Theorem pipeline_second_run_differs :
  let once := "a" +:+ Py.nl in
  let twice :=
    "a" +:+ Py.nl +:+ Py.nl +:+ "## Backlinks" +:+ Py.nl +:+ Py.nl
    +:+ "* [[" +:+ third_zid +:+ "]] [Bee](" +:+ third_zid +:+ ".md "
    +:+ Py.dq +:+ "autogen" +:+ Py.dq +:+ ")" +:+ Py.nl in
  elements (get_backlinks linked_pair other_zid) = [third_zid]
  ∧ pipeline linked_pair (other_zid +:+ ".md") untagged = Ok once
  ∧ pipeline linked_pair (other_zid +:+ ".md") once = Ok twice
  ∧ once ≠ twice.
Proof. vm_compute. split_and!; done. Qed.

(** ** The depth pass on notes whose depth is bound *)

Lemma evolves_all_bound m m' : evolves m m' → all_bound m → all_bound m'.
Proof.
  intros He Hb k z' Hk. specialize (He k). rewrite Hk in He.
  destruct (m !! k) as [z|] eqn:Hz; [|done].
  destruct He as [_ [He|[d He]]]; [|congruence].
  rewrite He. by eapply Hb.
Qed.

Lemma evolves_visited m m' k : evolves m m' → visited m k → visited m' k.
Proof.
  intros He (z & d & Hk & Hd). specialize (He k). rewrite Hk in He.
  destruct (m' !! k) as [z'|] eqn:Hk'; [|done].
  destruct He as [_ [He|[d' He]]]; [exists z', d|exists z', d']; split; congruence.
Qed.

Lemma evolves_is_Some m m' k : evolves m m' → is_Some (m !! k) ↔ is_Some (m' !! k).
Proof.
  intros He. specialize (He k).
  destruct (m !! k), (m' !! k); try done; split; eauto; by intros [??].
Qed.

Lemma evolves_links m m' k z z' :
  evolves m m' → m !! k = Some z → m' !! k = Some z' → links z' = links z.
Proof.
  intros He Hk Hk'. specialize (He k). rewrite Hk, Hk' in He.
  by apply deepened_same_graph in He as [_ ?].
Qed.

Lemma daughters_returns (rec : string → store → outcome * store)
    d ds st o st' :
  (∀ x s o' s', rec x s = (o', s') → evolves s.1 s'.1) →
  (∀ x s o' s', all_bound s.1 → rec x s = (o', s') →
                o' = Returned ∨ o' = Raised RecursionError) →
  all_bound st.1 → daughters rec d ds st = (o, st') →
  o = Returned ∨ o = Raised RecursionError.
Proof.
  intros Hev Hrec. revert st. induction ds as [|x ds IH]; intros st Hb; simpl.
  - intros [= <- _]. by left.
  - destruct (rec x st) as [[|e] s1] eqn:Hx.
    + apply IH. eapply evolves_all_bound; [|exact Hb].
      eapply evolves_trans; [by eapply Hev|apply assign_depth_evolves].
    + intros [= <- _]. by eapply Hrec.
Qed.

(** The only exceptions of the pass are the read of a depth that was never
    assigned and the refusal of a call for which the stack has no room. *)
Lemma _update_depths_returns frames k d st o st' :
  all_bound st.1 → _update_depths frames k d st = (o, st') →
  o = Returned ∨ o = Raised RecursionError.
Proof.
  revert k d st o st'. induction frames as [|frames IH]; intros k d st o st' Hb.
  { intros [= <- _]. by right. }
  simpl. destruct (st.1 !! k) as [m|] eqn:Hk; [|intros [= <- _]; by left].
  destruct (depth m) as [|[n|]] eqn:Hd.
  - by destruct (Hb _ _ Hk).
  - intros [= <- _]. by left.
  - apply daughters_returns.
    + intros x s o' s'. apply _update_depths_evolves.
    + intros x s o' s'. apply IH.
    + simpl. eapply evolves_all_bound; [|exact Hb]. by apply evolves_set_depth.
Qed.

Lemma pending__update_backlinks zk :
  pending (_update_backlinks zk).1 = pending (zid2zettel zk).
Proof.
  apply set_eq. intros k. rewrite !elem_of_pending, _update_backlinks_lookup.
  destruct (zid2zettel zk !! k) as [z|]; simpl; [|naive_solver]. split.
  - intros (z' & [= <-] & Hd). eauto.
  - intros (z' & [= <-] & Hd). eauto.
Qed.

(** [finalize] is not refused when the stack has room for one nested call
    for each note whose depth is [None]. *)
Lemma finalize_no_overflow limit zk o zk' log :
  size (pending (zid2zettel zk)) ≤ limit →
  finalize limit zk = (o, zk', log) → o ≠ Raised RecursionError.
Proof.
  intros Hroom. unfold finalize.
  destruct (_update_depths _ _ _ _) as [o' [m l]] eqn:Hd.
  apply _update_depths_no_overflow in Hd;
    [|rewrite pending__update_backlinks; lia].
  destruct o'; by intros [= <- _ _].
Qed.

(** [finalize] returns when every registered note has its depth bound and
    the stack has room for one nested call for each note whose depth is
    [None]. *)
Lemma finalize_returns limit zk :
  all_bound (zid2zettel zk) → size (pending (zid2zettel zk)) ≤ limit →
  ∃ zk' log, finalize limit zk = (Returned, zk', log).
Proof.
  intros Hb Hroom. destruct (finalize limit zk) as [[o zk'] log] eqn:Hf.
  pose proof (finalize_no_overflow _ _ _ _ _ Hroom Hf) as Hno.
  unfold finalize in Hf.
  assert (all_bound (_update_backlinks zk).1) as Hb'.
  { intros k z. rewrite _update_backlinks_lookup.
    destruct (zid2zettel zk !! k) as [z0|] eqn:Hk; [|done].
    intros [= <-]. simpl. by eapply Hb. }
  destruct (_update_depths _ _ _ _) as [o' [m l]] eqn:Hd.
  destruct (_update_depths_returns _ _ _ _ _ _ Hb' Hd) as [-> | ->].
  - injection Hf as <- <- <-. eauto.
  - injection Hf as <- _ _. done.
Qed.

Lemma closed_same_visited S m m' :
  evolves m m' → (∀ k, visited m' k → visited m k) → closed S m → closed S m'.
Proof.
  intros He Hv Hc a z' b Ha Hva HS Hb Hreg.
  pose proof (He a) as Hea. rewrite Ha in Hea.
  destruct (m !! a) as [z|] eqn:Hz; [|done].
  eapply evolves_visited; [exact He|].
  apply (Hc a z b); [done|by apply Hv|done| |by eapply evolves_is_Some].
  by rewrite <- (evolves_links _ _ _ _ _ He Hz Ha).
Qed.

Lemma assign_depth_visited x d st k :
  (is_Some (st.1 !! x) → visited st.1 x) →
  visited (assign_depth x d st).1 k → visited st.1 k.
Proof.
  unfold assign_depth. intros Hx. destruct (st.1 !! x) as [t|] eqn:Ht; [|done].
  simpl. intros (z & n & Hk & Hz). destruct (decide (k = x)) as [->|Hne].
  - apply Hx. eauto.
  - rewrite lookup_insert_ne in Hk by done. by exists z, n.
Qed.

Lemma daughters_closed (rec : string → store → outcome * store)
    S d ds st st' :
  (∀ x s o' s', rec x s = (o', s') → evolves s.1 s'.1) →
  (∀ x s s', closed S s.1 → rec x s = (Returned, s') →
             closed S s'.1 ∧ (is_Some (s.1 !! x) → visited s'.1 x)) →
  closed S st.1 → daughters rec d ds st = (Returned, st') →
  closed S st'.1 ∧ ∀ b, b ∈ ds → is_Some (st.1 !! b) → visited st'.1 b.
Proof.
  intros Hev Hrec. revert st. induction ds as [|x ds IH]; intros st Hc; simpl.
  - intros [= <-]. split; [done|]. by intros b ?%elem_of_nil.
  - destruct (rec x st) as [[|e] s1] eqn:Hx; [|done]. intros Hds.
    destruct (Hrec _ _ _ Hc Hx) as [Hc1 Hv1].
    pose proof (Hev _ _ _ _ Hx) as He1.
    assert (is_Some (s1.1 !! x) → visited s1.1 x) as Hv1'.
    { intros ?. apply Hv1. by apply (evolves_is_Some _ _ _ He1). }
    assert (closed S (assign_depth x d s1).1) as Hc2.
    { eapply closed_same_visited; [apply assign_depth_evolves| |exact Hc1].
      intros k. by apply assign_depth_visited. }
    destruct (IH _ Hc2 Hds) as [Hc' Hv'].
    pose proof (daughters_evolves _ _ _ _ _ _ Hev Hds) as He2.
    split; [done|]. intros b [->|Hb]%elem_of_cons Hreg.
    + eapply evolves_visited; [exact He2|].
      eapply evolves_visited; [apply assign_depth_evolves|]. by apply Hv1.
    + apply Hv'; [done|].
      apply (evolves_is_Some _ _ _ (assign_depth_evolves x d s1)).
      by apply (evolves_is_Some _ _ _ He1).
Qed.

Lemma _update_depths_closed frames S k d st st' :
  closed S st.1 → _update_depths frames k d st = (Returned, st') →
  closed S st'.1 ∧ (is_Some (st.1 !! k) → visited st'.1 k).
Proof.
  revert S k d st st'.
  induction frames as [|frames IH]; intros S k d st st' Hc; [done|].
  simpl. destruct (st.1 !! k) as [m|] eqn:Hk.
  - destruct (depth m) as [|[n|]] eqn:Hd; [done| |].
    + intros [= <-]. split; [done|]. intros _. by exists m, n.
    + intros Hds.
      set (m1 := <[k := set_depth d m]> st.1) in *.
      assert (evolves st.1 m1) as He1 by (by apply evolves_set_depth).
      assert (visited m1 k) as Hvk.
      { exists (set_depth d m), d. unfold m1. by rewrite lookup_insert_eq. }
      assert (closed (S ∪ {[k]}) m1) as Hc1.
      { intros a z b Ha Hva Hnot Hb Hreg.
        assert (a ≠ k) as Hne by set_solver.
        unfold m1 in Ha, Hva. rewrite lookup_insert_ne in Ha by done.
        eapply evolves_visited; [exact He1|].
        apply (Hc a z b); [done| |set_solver|done|by eapply evolves_is_Some].
        destruct Hva as (z' & n & Hz' & Hn).
        rewrite lookup_insert_ne in Hz' by done. by exists z', n. }
      assert (evolves m1 st'.1) as He'.
      { eapply daughters_evolves in Hds; [exact Hds|].
        intros x s o' s'. apply _update_depths_evolves. }
      eapply daughters_closed in Hds as [Hc' Hv'];
        [|intros x s o' s'; apply _update_depths_evolves
         |intros x s s'; apply IH|exact Hc1].
      split; [|intros _; by eapply evolves_visited].
      intros a z b Ha Hva Hnot Hb Hreg.
      destruct (decide (a = k)) as [->|Hne].
      * apply Hv'.
        -- pose proof (He' k) as Hek. rewrite Ha in Hek.
           unfold m1 in Hek. rewrite lookup_insert_eq in Hek.
           apply deepened_same_graph in Hek as [_ Hl]. simpl in Hl.
           by rewrite Hl.
        -- by eapply evolves_is_Some.
      * apply (Hc' a z b); [done|done|set_solver|done|done].
  - intros [= <-]. split; [done|]. by intros [??].
Qed.

(** On a collection whose notes all have [depth] bound to [None], with room
    on the stack for one nested call for each note, [finalize] returns and
    every note the root reaches through registered links ends with a number
    as its depth. *)
Lemma finalize_reaches limit zk :
  (∀ k z, zid2zettel zk !! k = Some z → depth z = Bound None) →
  size (zid2zettel zk) ≤ limit →
  ∃ zk' log,
    finalize limit zk = (Returned, zk', log)
    ∧ ∀ k, reachable (zid2zettel zk) k → visited (zid2zettel zk') k.
Proof.
  intros Hnone Hroom.
  destruct (finalize_returns limit zk) as (zk' & log & Hf).
  { intros k z Hk. by rewrite (Hnone _ _ Hk). }
  { pose proof (pending_size (zid2zettel zk)). lia. }
  exists zk', log. split; [done|].
  assert (closed ∅ (_update_backlinks zk).1) as Hc.
  { intros a z b Ha (z' & n & Hz' & Hn). exfalso.
    rewrite _update_backlinks_lookup in Hz'.
    destruct (zid2zettel zk !! a) as [z0|] eqn:Hz0; [|done].
    injection Hz' as <-. simpl in Hn. rewrite (Hnone _ _ Hz0) in Hn. done. }
  pose proof Hf as Hf'. unfold finalize in Hf'.
  destruct (_update_depths _ _ _ _) as [[|e] [m l]] eqn:Hd; [|done].
  injection Hf' as <- <-.
  apply _update_depths_closed with (S := ∅) in Hd as [Hc' Hroot]; [|done].
  simpl in *. induction 1 as [Hr|a z b _ IH Ha Hb Hreg].
  - apply Hroot. rewrite _update_backlinks_lookup. by apply fmap_is_Some.
  - destruct (finalize_lookup_inv _ _ _ _ _ _ _ Hf Ha) as (z' & Ha' & _ & Hl).
    simpl in Ha'. apply (Hc' a z' b);
      [done|done|apply not_elem_of_empty|by rewrite <- Hl|].
    destruct Hreg as [zb Hzb].
    destruct (finalize_lookup_inv _ _ _ _ _ _ _ Hf Hzb) as (zb' & Hb' & _).
    simpl in Hb'. eauto.
Qed.

(** ** Ids, links and tags of a note *)

Lemma length_snoc s c : String.length (Py.snoc s c) = S (String.length s).
Proof. induction s as [|a s IH]; [done|]. simpl. by rewrite <- IH. Qed.

Lemma str_all_snoc p s c : str_all p (Py.snoc s c) = str_all p s && p c.
Proof.
  induction s as [|a s IH]; simpl; [by rewrite andb_true_r|].
  fold (Py.snoc s c). by rewrite IH, andb_assoc.
Qed.

Lemma id_findall_go_ids cur s :
  String.length cur < 14 → str_all Py.isdigit cur = true →
  Forall (λ m, is_id m = true) (id_findall_go cur s).
Proof.
  revert cur. induction s as [|c s IH]; intros cur Hlen Hdig; simpl; [constructor|].
  destruct (Py.isdigit c) eqn:Hc; [|apply IH; [simpl; lia|done]].
  assert (str_all Py.isdigit (Py.snoc cur c) = true) as Hdig'
    by (by rewrite str_all_snoc, Hdig, Hc).
  destruct (String.length (Py.snoc cur c) =? 14) eqn:H14.
  - constructor; [|apply IH; [simpl; lia|done]].
    unfold is_id. by rewrite H14, Hdig'.
  - apply IH; [|done]. apply Nat.eqb_neq in H14.
    rewrite length_snoc in *. lia.
Qed.

Lemma id_findall_go_exact cur s :
  str_all Py.isdigit s = true → s ≠ EmptyString →
  String.length cur + String.length s = 14 →
  id_findall_go cur s = [cur +:+ s].
Proof.
  revert cur. induction s as [|c s IH]; intros cur Hdig Hne Hlen; [done|].
  simpl in *. apply andb_prop in Hdig as [Hc Hs]. rewrite Hc.
  destruct s as [|c' s].
  - rewrite length_snoc.
    replace (S (String.length cur) =? 14) with true
      by (symmetry; apply Nat.eqb_eq; simpl in Hlen; lia).
    done.
  - rewrite length_snoc.
    replace (S (String.length cur) =? 14) with false
      by (symmetry; apply Nat.eqb_neq; simpl in Hlen; lia).
    rewrite IH; [|done|done|rewrite length_snoc; simpl in *; lia].
    unfold Py.snoc. by rewrite str_app_assoc.
Qed.

Lemma id_findall_id m : is_id m = true → id_findall m = [m].
Proof.
  unfold is_id. intros [Hlen Hdig]%andb_prop. apply Nat.eqb_eq in Hlen.
  unfold id_findall. rewrite id_findall_go_exact; [done|done| |done].
  intros ->. done.
Qed.

Lemma contains_here pre sub rest : Py.contains sub (pre +:+ sub +:+ rest) = true.
Proof.
  induction pre as [|c pre IH]; [exact (contains_app sub rest)|].
  rewrite str_app_cons, contains_unfold, IH. apply orb_true_r.
Qed.

Lemma id_findall_go_substring pre cur s :
  Forall (λ m, Py.contains m (pre +:+ cur +:+ s) = true) (id_findall_go cur s).
Proof.
  revert pre cur. induction s as [|c s IH]; intros pre cur; simpl; [constructor|].
  assert (pre +:+ cur +:+ String c s = pre +:+ Py.snoc cur c +:+ s) as Hsnoc.
  { unfold Py.snoc. by rewrite str_app_assoc. }
  destruct (Py.isdigit c).
  - destruct (String.length (Py.snoc cur c) =? 14).
    + constructor; [rewrite Hsnoc; apply contains_here|].
      specialize (IH (pre +:+ Py.snoc cur c) EmptyString).
      rewrite str_app_assoc in IH. by rewrite Hsnoc.
    + rewrite Hsnoc. apply IH.
  - specialize (IH (pre +:+ Py.snoc cur c) EmptyString).
    rewrite str_app_assoc in IH. by rewrite Hsnoc.
Qed.

(** X1. [get_zid] gives a piece of the file name: the name itself when it has
    no run of fourteen digits, else fourteen digits of it. Taking the id of
    an id changes nothing. *)
Theorem get_zid_shape name :
  Py.contains (get_zid name) name = true
  ∧ ((id_findall name = [] ∧ get_zid name = name)
     ∨ is_id (get_zid name) = true)
  ∧ get_zid (get_zid name) = get_zid name.
Proof.
  unfold get_zid.
  pose proof (id_findall_go_ids EmptyString name) as Hids.
  pose proof (id_findall_go_substring EmptyString EmptyString name) as Hsub.
  fold (id_findall name) in Hids, Hsub.
  destruct (id_findall name) as [|m ms] eqn:Hm.
  - split_and!; [|by left|by rewrite Hm].
    rewrite <- (str_app_nil_r name) at 2. apply contains_app.
  - apply Forall_cons in Hids as [Hid _]; [|simpl; lia|done].
    apply Forall_cons in Hsub as [Hsub _].
    split_and!; [done|by right|by rewrite (id_findall_id _ Hid)].
Qed.

Lemma foldl_analyze_line_eq z ls :
  foldl analyze_line z ls
  = {| path := path z; zid := zid z;
       links := links z ++ (ls ≫= id_findall);
       title := match last (filter (λ l, Py.startswith l "# " = true) ls) with
                | Some line => heading_text line
                | None => title z
                end;
       tags := match last (filter (λ l, is_tag_line l = true) ls) with
               | Some line => read_tags line
               | None => tags z
               end;
       backlinks := backlinks z; depth := depth z |}.
Proof.
  revert z. induction ls as [|l ls IH]; intros z; cbn [foldl].
  - destruct z. simpl. by rewrite app_nil_r.
  - rewrite IH, !filter_cons, bind_cons. clear IH.
    assert (path (analyze_line z l) = path z) as -> by done.
    assert (zid (analyze_line z l) = zid z) as -> by done.
    assert (backlinks (analyze_line z l) = backlinks z) as -> by done.
    assert (depth (analyze_line z l) = depth z) as -> by done.
    assert (links (analyze_line z l) = links z ++ id_findall l) as -> by done.
    assert (title (analyze_line z l)
            = if Py.startswith l "# " then heading_text l else title z)
      as -> by done.
    assert (tags (analyze_line z l)
            = if is_tag_line l then read_tags l else tags z) as -> by done.
    f_equal.
    + by rewrite <- app_assoc.
    + case_decide as Hl.
      * rewrite last_cons, Hl. by destruct (last (filter _ ls)).
      * destruct (last (filter _ ls)); [done|].
        by destruct (Py.startswith l "# ").
    + case_decide as Hl.
      * rewrite last_cons, Hl. by destruct (last (filter _ ls)).
      * destruct (last (filter _ ls)); [done|]. by destruct (is_tag_line l).
Qed.

(** X2. Every link of a note is a string of fourteen digits, and the links are
    the matches of the lines, in order. *)
Theorem links_are_ids name content :
  links (new_Zettel name content) = Py.readlines content ≫= id_findall
  ∧ Forall (λ l, is_id l = true) (links (new_Zettel name content)).
Proof.
  unfold new_Zettel, analyze_file. rewrite foldl_analyze_line_eq.
  cbn [links app]. split; [done|].
  induction (Py.readlines content) as [|l ls IH]; [constructor|].
  rewrite bind_cons. apply Forall_app. split; [|done].
  apply id_findall_go_ids; [simpl; lia|done].
Qed.

(** X3. Analysing the same text again changes nothing: the links are collected
    afresh, and the title and the tags come out the same. *)
Theorem analyze_file_idempotent z content :
  analyze_file (analyze_file z content) content = analyze_file z content.
Proof.
  unfold analyze_file. rewrite !foldl_analyze_line_eq.
  cbn [path zid links title tags backlinks depth app]. f_equal.
  - by destruct (last _).
  - by destruct (last _).
Qed.

Lemma has_space_snoc s c :
  Py.has_space (Py.snoc s c) = Py.has_space s || Py.isspace c.
Proof.
  induction s as [|a s IH]; simpl; [by rewrite orb_false_r|].
  fold (Py.snoc s c). by rewrite IH, orb_assoc.
Qed.

Lemma tag_findall_go_no_space cur s :
  (∀ t, cur = Some t → Py.has_space t = false) →
  Forall (λ t, Py.has_space t = false) (tag_findall_go cur s).
Proof.
  revert cur. induction s as [|c s IH]; intros cur Hcur; simpl.
  - destruct cur; [|constructor]. constructor; [by apply Hcur|constructor].
  - destruct cur as [t|].
    + destruct (Py.isspace c) eqn:Hc.
      * constructor; [by apply Hcur|]. by apply IH.
      * apply IH. intros ? [= <-]. by rewrite has_space_snoc, (Hcur t), Hc.
    + destruct (Ascii.eqb c "#"); apply IH; [|done]. by intros ? [= <-].
Qed.

Lemma read_tags_no_space line t : t ∈ read_tags line → Py.has_space t = false.
Proof.
  unfold read_tags. rewrite elem_of_list_to_set, list_elem_of_fmap.
  intros (h & -> & Hh).
  pose proof (tag_findall_go_no_space None line) as Hall.
  rewrite Forall_forall in Hall. specialize (Hall ltac:(done) h Hh).
  destruct h as [|c h]; [done|]. simpl in *.
  by apply orb_false_iff in Hall as [_ ?].
Qed.

Lemma new_Zettel_tags name content :
  tags (new_Zettel name content)
  = match last (filter (λ l, is_tag_line l = true) (Py.readlines content)) with
    | Some line => read_tags line
    | None => ∅
    end.
Proof.
  unfold new_Zettel, analyze_file. by rewrite foldl_analyze_line_eq.
Qed.

Lemma new_Zettel_tags_no_space name content t :
  t ∈ tags (new_Zettel name content) → Py.has_space t = false.
Proof.
  rewrite new_Zettel_tags. destruct (last _); [|by intros ?%not_elem_of_empty].
  apply read_tags_no_space.
Qed.

(** X4. The tags of a note are those of the last line that holds the tag
    marker, none when no line does; no tag contains white space. *)
Theorem tags_of_last_tag_line name content :
  tags (new_Zettel name content)
  = match last (filter (λ l, is_tag_line l = true) (Py.readlines content)) with
    | Some line => read_tags line
    | None => ∅
    end
  ∧ ∀ t, t ∈ tags (new_Zettel name content) → Py.has_space t = false.
Proof.
  split; [apply new_Zettel_tags|]. intros t. apply new_Zettel_tags_no_space.
Qed.

(** X5. The tags a note was parsed with survive formatting and parsing again,
    as a line and as the text of a note. *)
Theorem parsed_tags_round_trip name name' content :
  let T := tags (new_Zettel name content) in
  read_tags (_format_tags T) = T
  ∧ tags (new_Zettel name' (_format_tags T)) = T.
Proof.
  intros T.
  assert (∀ t, t ∈ T → Py.has_space t = false) as HT
    by (intros t; apply new_Zettel_tags_no_space).
  split; [by apply read_tags__format_tags|].
  unfold new_Zettel, analyze_file. rewrite readlines__format_tags by done.
  cbn [foldl]. unfold analyze_line. cbn [tags].
  assert (Py.contains "tags: " (Py.lower (_format_tags T)) = true) as ->.
  { unfold _format_tags.
    change (Py.lower ("Tags: " +:+ ?X)) with ("tags: " +:+ Py.lower X).
    apply contains_app. }
  by apply read_tags__format_tags.
Qed.

(** ** Registration and the views of the collection *)

Lemma filter_none {A} (P : A → Prop) `{∀ x, Decision (P x)} (l : list A) :
  (∀ x, x ∈ l → ¬ P x) → filter P l = [].
Proof.
  induction l as [|a l IH]; intros Hl; [done|].
  rewrite filter_cons, decide_False by (apply Hl; by left).
  apply IH. intros x Hx. apply Hl. by right.
Qed.

Lemma foldl_add_zettel_lookup zk zs k :
  zid2zettel (foldl add_zettel zk zs) !! k
  = match last (filter (λ z, zid z = k) zs) with
    | Some z => Some z
    | None => zid2zettel zk !! k
    end.
Proof.
  revert zk. induction zs as [|z zs IH]; intros zk; cbn [foldl]; [done|].
  rewrite IH, filter_cons. clear IH. case_decide as Hz.
  - rewrite last_cons. destruct (last (filter _ zs)); [done|].
    simpl. by rewrite Hz, lookup_insert_eq.
  - destruct (last (filter _ zs)); [done|].
    simpl. by rewrite lookup_insert_ne.
Qed.

Lemma foldl_add_zettel_finalized zk zs :
  _finalized (foldl add_zettel zk zs) = _finalized zk.
Proof.
  revert zk. induction zs as [|z zs IH]; intros zk; cbn [foldl]; [done|].
  by rewrite IH.
Qed.

(** X6. Registration is last-write-wins: under an id the collection holds the
    last of the registered notes with that id, and what it held before when
    there is none; the collection is marked as not finalized. *)
Theorem add_zettels_last_wins zk zs k :
  zid2zettel (add_zettels zk zs) !! k
  = match last (filter (λ z, zid z = k) zs) with
    | Some z => Some z
    | None => zid2zettel zk !! k
    end
  ∧ _finalized (add_zettels zk zs) = false.
Proof.
  unfold add_zettels. by rewrite foldl_add_zettel_lookup, foldl_add_zettel_finalized.
Qed.

Lemma zettels_app m o1 o2 : zettels m (o1 ++ o2) = zettels m o1 ++ zettels m o2.
Proof. unfold zettels. apply omap_app. Qed.

Lemma zettels_insert_fresh m order k z :
  k ∉ order → zettels (<[k := z]> m) order = zettels m order.
Proof.
  intros Hk. unfold zettels. induction order as [|j order IH]; [done|].
  apply not_elem_of_cons in Hk as [Hne Hk]. cbn [omap list_omap].
  by rewrite lookup_insert_ne, IH.
Qed.

Lemma foldl_add_zettel_zettels zk zs :
  wf zk → NoDup (zid <$> zs) →
  (∀ z, z ∈ zs → zid2zettel zk !! zid z = None) →
  let zk' := foldl add_zettel zk zs in
  zettels (zid2zettel zk') (zid_order zk')
  = zettels (zid2zettel zk) (zid_order zk) ++ zs.
Proof.
  revert zk. induction zs as [|z zs IH]; intros zk Hwf Hnd Hnew; cbn [foldl].
  - by rewrite app_nil_r.
  - rewrite fmap_cons in Hnd. apply NoDup_cons in Hnd as [Hz Hnd].
    assert (zid2zettel zk !! zid z = None) as Hnone
      by (apply Hnew; by left).
    assert (zid z ∉ zid_order zk) as Hfresh.
    { destruct Hwf as (_ & Hdom & _). rewrite Hdom, Hnone. by intros [??]. }
    cbn zeta in IH. rewrite IH; [|by apply add_zettel_wf|done|].
    + unfold add_zettel. simpl. rewrite Hnone, zettels_app.
      rewrite zettels_insert_fresh by done. rewrite <- app_assoc. f_equal.
      unfold zettels. simpl. by rewrite lookup_insert_eq.
    + intros z' Hz'. unfold add_zettel. simpl.
      rewrite lookup_insert_ne; [apply Hnew; by right|].
      intros Heq. apply Hz. rewrite Heq. by apply list_elem_of_fmap_2.
Qed.

Lemma zettels_in_registration_order_aux zs :
  NoDup (zid <$> zs) →
  zettels (zid2zettel (new_Zettelkasten zs)) (zid_order (new_Zettelkasten zs))
  = zs.
Proof.
  intros Hnd. unfold new_Zettelkasten, add_zettels. simpl.
  rewrite foldl_add_zettel_zettels; [done| |done|done].
  split_and!; simpl.
  - constructor.
  - intros k. rewrite lookup_empty. split; [by intros ?%elem_of_nil|by intros [??]].
  - intros k z. by rewrite lookup_empty.
Qed.

(** X7. Notes with pairwise distinct ids are listed by the collection in the
    order in which they were registered; registering further notes with new
    ids appends them. *)
Theorem zettels_in_registration_order zs more :
  NoDup (zid <$> (zs ++ more)) →
  let zk := new_Zettelkasten zs in
  zettels (zid2zettel zk) (zid_order zk) = zs
  ∧ zettels (zid2zettel (add_zettels zk more)) (zid_order (add_zettels zk more))
    = zs ++ more.
Proof.
  intros Hnd zk.
  assert (zettels (zid2zettel zk) (zid_order zk) = zs) as Hzs.
  { apply zettels_in_registration_order_aux.
    rewrite fmap_app in Hnd. by apply NoDup_app in Hnd as [? _]. }
  split; [done|].
  transitivity (zettels (zid2zettel zk) (zid_order zk) ++ more);
    [|by rewrite Hzs].
  unfold add_zettels.
  apply (foldl_add_zettel_zettels
           {| zid2zettel := zid2zettel zk; zid_order := zid_order zk;
              _finalized := false |}).
  - apply new_Zettelkasten_wf.
  - rewrite fmap_app in Hnd. by apply NoDup_app in Hnd as (_ & _ & ?).
  - intros z Hz. simpl. unfold zk, new_Zettelkasten, add_zettels.
    rewrite foldl_add_zettel_lookup. simpl.
    rewrite filter_none; [done|]. intros a Ha Heq.
    rewrite fmap_app in Hnd. apply NoDup_app in Hnd as (_ & Hdis & _).
    apply (Hdis (zid z)); [rewrite <- Heq|]; by apply list_elem_of_fmap_2.
Qed.

Lemma zettels_in_registration_order_witness :
  NoDup (zid <$> (two_cycle ++ []))
  ∧ zettels (zid2zettel (new_Zettelkasten two_cycle))
      (zid_order (new_Zettelkasten two_cycle)) = two_cycle.
Proof.
  assert (NoDup (zid <$> (two_cycle ++ []))) as H
    by (apply (bool_decide_unpack _); by vm_compute).
  split; [exact H|]. exact (proj1 (zettels_in_registration_order two_cycle [] H)).
Defined.

Lemma elem_of_foldl_tags (X : gset string) zs t :
  t ∈ foldl (λ acc z, acc ∪ tags z) X zs ↔ t ∈ X ∨ ∃ z, z ∈ zs ∧ t ∈ tags z.
Proof.
  revert X. induction zs as [|z zs IH]; intros X; cbn [foldl].
  - split; [by left|]. intros [?|(z & ?%elem_of_nil & _)]; done.
  - rewrite IH, elem_of_union. split.
    + intros [[?|?]|(z' & ? & ?)]; [by left|right|right].
      * exists z. split; [by left|done].
      * exists z'. split; [by right|done].
    + intros [?|(z' & [->|?]%elem_of_cons & ?)]; [by left; left|by left; right|].
      right. by exists z'.
Qed.

(** X8. The tags of the collection are exactly the tags of its registered
    notes, and its categories are those of them that start with [c_]. *)
Theorem zk_tags_categories zk t :
  wf zk →
  (t ∈ zk_tags zk ↔ ∃ k z, zid2zettel zk !! k = Some z ∧ t ∈ tags z)
  ∧ (t ∈ categories zk
     ↔ Py.startswith t "c_" = true
       ∧ ∃ k z, zid2zettel zk !! k = Some z ∧ t ∈ tags z).
Proof.
  intros (_ & Hdom & _).
  assert (t ∈ zk_tags zk ↔ ∃ k z, zid2zettel zk !! k = Some z ∧ t ∈ tags z)
    as Htags.
  { unfold zk_tags. rewrite elem_of_foldl_tags. split.
    - intros [?%not_elem_of_empty|(z & Hz & Ht)]; [done|].
      apply elem_of_zettels in Hz as (k & _ & Hk). eauto.
    - intros (k & z & Hk & Ht). right. exists z. split; [|done].
      apply elem_of_zettels. exists k. split; [|done]. apply Hdom. eauto. }
  split; [done|]. unfold categories. by rewrite elem_of_filter, Htags.
Qed.

Lemma zk_tags_categories_witness :
  let zk := new_Zettelkasten
              [note root_zid "tags: #c_a #x"; note other_zid "tags: #y"] in
  wf zk
  ∧ "y" ∈ zk_tags zk ∧ "c_a" ∈ categories zk ∧ "x" ∉ categories zk.
Proof.
  intros zk.
  assert (wf zk) as Hwf by apply new_Zettelkasten_wf.
  assert (∀ t k body,
            zid2zettel zk !! k = Some (note k body) →
            t ∈ tags (note k body) →
            ∃ k z, zid2zettel zk !! k = Some z ∧ t ∈ tags z) as Hreg
    by eauto.
  split; [exact Hwf|]. split_and!.
  - apply (proj1 (zk_tags_categories zk "y" Hwf)).
    apply (Hreg "y" other_zid "tags: #y"); [by vm_compute|].
    apply (bool_decide_unpack _). by vm_compute.
  - apply (proj2 (zk_tags_categories zk "c_a" Hwf)). split; [reflexivity|].
    apply (Hreg "c_a" root_zid "tags: #c_a #x"); [by vm_compute|].
    apply (bool_decide_unpack _). by vm_compute.
  - intros Hx. by apply (proj2 (zk_tags_categories zk "x" Hwf)) in Hx as [? _].
Defined.

Lemma max_depth_raises zs m0 :
  (∃ z, z ∈ zs ∧ depth z = Absent) → max_depth zs m0 = Raise AttributeError.
Proof.
  revert m0. induction zs as [|z zs IH]; intros m0 (a & Ha & Hd).
  - by apply elem_of_nil in Ha.
  - simpl. apply elem_of_cons in Ha as [->|Ha]; [by rewrite Hd|].
    destruct (depth z) as [|[d|]]; [done|apply IH; eauto|apply IH; eauto].
Qed.

Lemma max_depth_max zs m0 :
  Forall (λ z, depth z ≠ Absent) zs →
  ∃ m, max_depth zs m0 = Ok m
       ∧ m0 ≤ m
       ∧ (∀ z d, z ∈ zs → depth z = Bound (Some d) → d ≤ m)
       ∧ (m = m0 ∨ ∃ z, z ∈ zs ∧ depth z = Bound (Some m)).
Proof.
  intros Hall. revert m0. induction Hall as [|z zs Hz _ IH]; intros m0.
  - exists m0. split_and!; [done|done| |by left].
    by intros z d ?%elem_of_nil.
  - simpl. destruct (depth z) as [|[d|]] eqn:Hd; [done| |].
    + destruct (IH (Nat.max d m0)) as (m & -> & Hle & Hub & Hatt).
      exists m. split_and!; [done|lia| |].
      * intros z' d' [->|Hz']%elem_of_cons Hd'; [|by eapply Hub].
        rewrite Hd in Hd'. injection Hd' as <-. lia.
      * destruct Hatt as [->|(z' & Hz' & Hd')].
        -- destruct (Nat.max_spec d m0) as [[_ ->]|[_ ->]]; [by left|].
           right. exists z. split; [by left|done].
        -- right. exists z'. split; [by right|done].
    + destruct (IH m0) as (m & -> & Hle & Hub & Hatt).
      exists m. split_and!; [done|done| |].
      * intros z' d' [->|Hz']%elem_of_cons Hd'; [congruence|by eapply Hub].
      * destruct Hatt as [->|(z' & Hz' & Hd')]; [by left|].
        right. exists z'. split; [by right|done].
Qed.

(** X9. The depth of the collection is the largest depth of a registered note,
    0 when no note has a number as depth; reading it raises
    [AttributeError] when some registered note never had its depth bound. *)
Theorem zk_depth_is_max zk :
  wf zk →
  ((∃ k z, zid2zettel zk !! k = Some z ∧ depth z = Absent) →
   zk_depth zk = Raise AttributeError)
  ∧ (all_bound (zid2zettel zk) →
     ∃ m, zk_depth zk = Ok m
          ∧ (∀ k z d, zid2zettel zk !! k = Some z →
                      depth z = Bound (Some d) → d ≤ m)
          ∧ (m = 0 ∨ ∃ k z, zid2zettel zk !! k = Some z
                            ∧ depth z = Bound (Some m))).
Proof.
  intros (_ & Hdom & _). unfold zk_depth. split.
  - intros (k & z & Hk & Hd). apply max_depth_raises. exists z. split; [|done].
    apply elem_of_zettels. exists k. split; [|done]. apply Hdom. eauto.
  - intros Hb.
    destruct (max_depth_max (zettels (zid2zettel zk) (zid_order zk)) 0)
      as (m & Hm & _ & Hub & Hatt).
    { apply Forall_forall. intros z (k & _ & Hk)%elem_of_zettels. by eapply Hb. }
    exists m. split_and!; [done| |].
    + intros k z d Hk Hd. apply (Hub z); [|done].
      apply elem_of_zettels. exists k. split; [|done]. apply Hdom. eauto.
    + destruct Hatt as [->|(z & (k & _ & Hk)%elem_of_zettels & Hd)]; [by left|].
      right. eauto.
Qed.

Lemma zk_depth_is_max_witness :
  wf (new_Zettelkasten two_cycle)
  ∧ zk_depth (new_Zettelkasten two_cycle) = Raise AttributeError.
Proof.
  split; [apply new_Zettelkasten_wf|].
  apply (proj1 (zk_depth_is_max (new_Zettelkasten two_cycle)
                  (new_Zettelkasten_wf two_cycle))).
  exists root_zid, (note root_zid ("see " +:+ other_zid)).
  split; reflexivity.
Defined.

Section by_path.

Variable path_name : string → string.

Lemma filter_unique {A} (f : A → string) (zs : list A) z :
  NoDup (f <$> zs) → z ∈ zs → filter (λ a, f a = f z) zs = [z].
Proof.
  induction zs as [|a zs IH]; intros Hnd Hz; [by apply elem_of_nil in Hz|].
  rewrite fmap_cons in Hnd. apply NoDup_cons in Hnd as [Ha Hnd].
  rewrite filter_cons. apply elem_of_cons in Hz as [->|Hz].
  - rewrite decide_True by done. f_equal.
    apply filter_none. intros b Hb Heq.
    apply Ha. rewrite <- Heq. by apply list_elem_of_fmap_2.
  - rewrite decide_False; [by apply IH|].
    intros Heq. apply Ha. rewrite Heq. by apply list_elem_of_fmap_2.
Qed.

(** X10. Among registered notes with pairwise distinct ids and file names,
    [get_by_path] finds each note by its path; a file name that no note has,
    or that two notes share, raises [AssertionError]. *)
Theorem get_by_path_finds zs :
  NoDup (zid <$> zs) →
  (NoDup ((λ z, path_name (path z)) <$> zs) →
   ∀ z, z ∈ zs → get_by_path path_name (new_Zettelkasten zs) (path z) = Ok z)
  ∧ (∀ p, (∀ z, z ∈ zs → path_name (path z) ≠ path_name p) →
          get_by_path path_name (new_Zettelkasten zs) p = Raise AssertionError)
  ∧ (∀ z1 z2, z1 ∈ zs → z2 ∈ zs → z1 ≠ z2 →
              path_name (path z1) = path_name (path z2) →
              get_by_path path_name (new_Zettelkasten zs) (path z1)
              = Raise AssertionError).
Proof.
  intros Hnd. unfold get_by_path.
  rewrite (zettels_in_registration_order_aux zs Hnd). split_and!.
  - intros Hnames z Hz.
    by rewrite (filter_unique (λ z, path_name (path z)) zs z Hnames Hz).
  - intros p Hp.
    rewrite filter_none; [done|]. intros z Hz. by apply Hp.
  - intros z1 z2 H1 H2 Hne Heq.
    destruct (filter _ zs) as [|a [|b r]] eqn:Hf; [done| |done].
    assert (z1 ∈ [a]) as E1%list_elem_of_singleton
      by (rewrite <- Hf; by apply list_elem_of_filter).
    assert (z2 ∈ [a]) as E2%list_elem_of_singleton
      by (rewrite <- Hf; by apply list_elem_of_filter).
    congruence.
Qed.

End by_path.

Lemma get_by_path_finds_witness :
  NoDup (zid <$> two_cycle)
  ∧ get_by_path id (new_Zettelkasten two_cycle) "nowhere.md"
    = Raise AssertionError.
Proof.
  assert (NoDup (zid <$> two_cycle)) as H
    by (apply (bool_decide_unpack _); by vm_compute).
  split; [exact H|].
  apply (proj1 (proj2 (get_by_path_finds id two_cycle H))).
  apply (Forall_forall (λ z, id (path z) ≠ id "nowhere.md")). unfold two_cycle.
  apply Forall_cons. split; [vm_compute; discriminate|].
  apply Forall_cons. split; [vm_compute; discriminate|constructor].
Defined.

(** ** What finalize changes *)

Lemma new_Zettelkasten_elem zs k z :
  zid2zettel (new_Zettelkasten zs) !! k = Some z → z ∈ zs.
Proof.
  unfold new_Zettelkasten, add_zettels. rewrite foldl_add_zettel_lookup. simpl.
  destruct (last (filter _ zs)) as [a|] eqn:Hlast; [|by rewrite lookup_empty].
  intros [= <-]. apply last_Some in Hlast as [l' Hl'].
  assert (a ∈ filter (λ z0, zid z0 = k) zs) as Ha
    by (rewrite Hl'; apply elem_of_app; right; by left).
  by apply list_elem_of_filter in Ha as [_ ?].
Qed.

Lemma _update_backlinks_dom zk :
  dom (_update_backlinks zk).1 = dom (zid2zettel zk).
Proof.
  apply set_eq. intros k.
  by rewrite !elem_of_dom, _update_backlinks_lookup, fmap_is_Some.
Qed.

Lemma _update_backlinks_depth zk k :
  depth <$> (_update_backlinks zk).1 !! k = depth <$> zid2zettel zk !! k.
Proof.
  rewrite _update_backlinks_lookup. by destruct (zid2zettel zk !! k).
Qed.

(** X11. Whichever way [finalize] ends, it keeps the keys and their order,
    and of a note it changes nothing but the backlinks and the depth. *)
Theorem finalize_changes_backlinks_and_depth_only limit zk :
  ∃ o zk' log,
    finalize limit zk = (o, zk', log)
    ∧ zid_order zk' = zid_order zk
    ∧ ∀ k, match zid2zettel zk !! k, zid2zettel zk' !! k with
           | Some z, Some z' =>
               path z' = path z ∧ zid z' = zid z ∧ links z' = links z
               ∧ title z' = title z ∧ tags z' = tags z
           | None, None => True
           | _, _ => False
           end.
Proof.
  destruct (finalize limit zk) as [[o zk'] log] eqn:Hf.
  exists o, zk', log. split; [done|].
  apply finalize_inv in Hf as (Ho & He & _). split; [done|].
  intros k. specialize (He k). rewrite _update_backlinks_lookup in He.
  destruct (zid2zettel zk !! k) as [z|], (zid2zettel zk' !! k) as [z'|];
    try done.
  destruct He as [He _]. unfold forget_depth in He. simpl in He.
  by injection He as -> -> -> -> ->.
Qed.

(** X12. When the root is not registered with its depth bound to [None],
    [finalize] changes no depth, whatever room the stack has. In that case
    it is left by [AttributeError] exactly when the root is registered and
    its depth was never bound, and it returns otherwise; it logs, after the
    messages of the backlink pass, one message when the root is not
    registered and nothing else. *)
Theorem finalize_keeps_depths limit zk :
  (∀ z, zid2zettel zk !! root_zid = Some z → depth z ≠ Bound None) →
  ∃ o zk' log,
    finalize limit zk = (o, zk', log)
    ∧ (∀ k, depth <$> zid2zettel zk' !! k = depth <$> zid2zettel zk !! k)
    ∧ (o = Raised AttributeError
       ↔ ∃ z, zid2zettel zk !! root_zid = Some z ∧ depth z = Absent)
    ∧ (o ≠ Raised AttributeError → o = Returned)
    ∧ log = (_update_backlinks zk).2
            ++ match zid2zettel zk !! root_zid with
               | None => [not_found root_zid]
               | Some _ => []
               end.
Proof.
  intros Hroot. unfold finalize.
  pose proof (_update_backlinks_lookup zk root_zid) as Hl.
  pose proof (_update_backlinks_depth zk) as Hd.
  destruct (_update_backlinks zk) as [m l]. simpl in *. rewrite Hl.
  destruct (zid2zettel zk !! root_zid) as [z|] eqn:Hz; simpl.
  - destruct (depth z) as [|[d|]] eqn:Hdz.
    + exists (Raised AttributeError), {| zid2zettel := m;
        zid_order := zid_order zk; _finalized := _finalized zk |}, l.
      split_and!; [done|done|split; eauto|done|by rewrite app_nil_r].
    + exists Returned, {| zid2zettel := m; zid_order := zid_order zk;
        _finalized := true |}, l.
      split_and!; [done|done| |done|by rewrite app_nil_r].
      split; [done|]. intros (z' & [= <-] & ?). congruence.
    + by destruct (Hroot z).
  - exists Returned, {| zid2zettel := m; zid_order := zid_order zk;
      _finalized := true |}, (l ++ [not_found root_zid]).
    split_and!; [done|done| |done|done]. split; [done|]. by intros (? & ? & _).
Qed.

Lemma finalize_keeps_depths_witness :
  let zk := new_Zettelkasten dangling_root in
  (∀ z, zid2zettel zk !! root_zid = Some z → depth z ≠ Bound None)
  ∧ (finalize 0 zk).1.1 = Raised AttributeError
  ∧ ∀ k, depth <$> zid2zettel (finalize 0 zk).1.2 !! k
         = depth <$> zid2zettel zk !! k.
Proof.
  intros zk.
  assert (∀ z, zid2zettel zk !! root_zid = Some z → depth z ≠ Bound None) as H.
  { intros z Hz. vm_compute in Hz. injection Hz as <-. discriminate. }
  split; [exact H|].
  destruct (finalize_keeps_depths 0 zk H) as (o & zk' & log & Hf & Hd & Ho & _).
  rewrite Hf. split; [|exact Hd].
  apply Ho. exists (note root_zid ("see " +:+ missing_zid)).
  split; [by vm_compute|reflexivity].
Defined.

Lemma depths_at_most_set_depth n m k z d :
  depths_at_most n m → d ≤ n → depths_at_most n (<[k := set_depth d z]> m).
Proof.
  intros Hm Hd j z' d'. destruct (decide (j = k)) as [->|Hne].
  - rewrite lookup_insert_eq. intros [= <-] [= <-]. done.
  - rewrite lookup_insert_ne by done. apply Hm.
Qed.

Lemma assign_depth_at_most n x d st :
  depths_at_most n st.1 → d ≤ n → depths_at_most n (assign_depth x d st).1.
Proof.
  intros Hm Hd. unfold assign_depth. destruct (st.1 !! x); [|done].
  by apply depths_at_most_set_depth.
Qed.

Lemma daughters_at_most (rec : string → store → outcome * store)
    n d ds st o st' :
  (∀ x s o' s', rec x s = (o', s') → evolves s.1 s'.1) →
  (∀ x s o' s', rec x s = (o', s') → depths_at_most n s.1 →
                d + size (pending s.1) ≤ n → depths_at_most n s'.1) →
  depths_at_most n st.1 → d + size (pending st.1) ≤ n → d ≤ n →
  daughters rec d ds st = (o, st') → depths_at_most n st'.1.
Proof.
  intros Hev Hrec. revert st.
  induction ds as [|x ds IH]; intros st Hm Hsz Hd; simpl.
  - by intros [= _ <-].
  - destruct (rec x st) as [[|e] s1] eqn:Hx.
    + apply IH; [| |done].
      * apply assign_depth_at_most; [by eapply Hrec|done].
      * assert (pending (assign_depth x d s1).1 ⊆ pending st.1) as Hsub.
        { apply evolves_pending. eapply evolves_trans; [by eapply Hev|].
          apply assign_depth_evolves. }
        apply subseteq_size in Hsub. lia.
    + intros [= _ <-]. by eapply Hrec.
Qed.

Lemma _update_depths_at_most frames n k d st o st' :
  _update_depths frames k d st = (o, st') →
  depths_at_most n st.1 → d + size (pending st.1) ≤ n →
  depths_at_most n st'.1.
Proof.
  revert k d st o st'.
  induction frames as [|frames IH]; intros k d st o st'; [by intros [= _ <-]|].
  simpl. destruct (st.1 !! k) as [m|] eqn:Hk; [|by intros [= _ <-]].
  destruct (depth m) as [|[j|]] eqn:Hd;
    [by intros [= _ <-]|by intros [= _ <-]|].
  intros Hds Hm Hsz.
  pose proof (subset_size _ _ (pending_set_depth _ _ _ d Hk Hd)) as Hlt.
  eapply daughters_at_most in Hds; [exact Hds| | | | |].
  - intros x s o' s'. apply _update_depths_evolves.
  - intros x s o' s'. apply IH.
  - simpl. apply depths_at_most_set_depth; [done|lia].
  - simpl. lia.
  - lia.
Qed.

(** X13. No depth exceeds the number of registered notes: when that holds
    before [finalize] (as it does when no note has a number as depth), it
    holds after, whichever way the call ends. *)
Theorem finalize_depths_at_most limit zk :
  depths_at_most (size (zid2zettel zk)) (zid2zettel zk) →
  ∃ o zk' log,
    finalize limit zk = (o, zk', log)
    ∧ depths_at_most (size (zid2zettel zk)) (zid2zettel zk').
Proof.
  intros Hm. destruct (finalize limit zk) as [[o zk'] log] eqn:Hf.
  exists o, zk', log. split; [done|]. unfold finalize in Hf.
  destruct (_update_depths _ _ _ _) as [o' [m l]] eqn:Hd.
  assert (zid2zettel zk' = m) as -> by (destruct o'; by injection Hf as _ <- _).
  assert (size (_update_backlinks zk).1 = size (zid2zettel zk)) as Hsize.
  { by rewrite <- !(size_dom (D := gset string)), _update_backlinks_dom. }
  eapply _update_depths_at_most in Hd; [exact Hd| |].
  - intros k z d Hk Hz. pose proof (_update_backlinks_depth zk k) as Hdk.
    rewrite Hk in Hdk. destruct (zid2zettel zk !! k) as [z0|] eqn:Hz0; [|done].
    injection Hdk as Hdk. apply (Hm k z0 d); [done|congruence].
  - pose proof (pending_size (_update_backlinks zk).1). simpl. lia.
Qed.

Lemma finalize_depths_at_most_witness :
  depths_at_most (size (zid2zettel (new_Zettelkasten (preset <$> two_cycle))))
    (zid2zettel (new_Zettelkasten (preset <$> two_cycle)))
  ∧ ∃ o zk' log,
      finalize 2 (new_Zettelkasten (preset <$> two_cycle)) = (o, zk', log)
      ∧ depths_at_most
          (size (zid2zettel (new_Zettelkasten (preset <$> two_cycle))))
          (zid2zettel zk').
Proof.
  assert (depths_at_most
            (size (zid2zettel (new_Zettelkasten (preset <$> two_cycle))))
            (zid2zettel (new_Zettelkasten (preset <$> two_cycle)))) as H.
  { intros k z d Hk%new_Zettelkasten_elem Hd. exfalso. revert z Hk Hd.
    apply (Forall_forall (λ z, depth z = Bound (Some d) → False)).
    unfold two_cycle. rewrite !fmap_cons, fmap_nil.
    apply Forall_cons. split; [discriminate|].
    apply Forall_cons. split; [discriminate|constructor]. }
  split; [exact H|].
  exact (finalize_depths_at_most 2 (new_Zettelkasten (preset <$> two_cycle)) H).
Defined.

(** ** Which notes get a depth *)

Lemma assign_depth_visited_inv x d st y :
  visited (assign_depth x d st).1 y →
  (y = x ∧ is_Some (st.1 !! x)) ∨ visited st.1 y.
Proof.
  unfold assign_depth. destruct (st.1 !! x) as [t|] eqn:Ht; [|by right].
  simpl. intros (z & n & Hy & Hz). destruct (decide (y = x)) as [->|Hne].
  - left. eauto.
  - right. rewrite lookup_insert_ne in Hy by done. by exists z, n.
Qed.

Lemma daughters_reached m0 (rec : string → store → outcome * store)
    d ds st o st' :
  (∀ x s o' s', rec x s = (o', s') → evolves s.1 s'.1) →
  (∀ x s o' s', rec x s = (o', s') → evolves m0 s.1 →
                (∀ y, visited s.1 y → reachable m0 y) →
                (is_Some (m0 !! x) → reachable m0 x) →
                ∀ y, visited s'.1 y → reachable m0 y) →
  (∀ x, x ∈ ds → is_Some (m0 !! x) → reachable m0 x) →
  evolves m0 st.1 → (∀ y, visited st.1 y → reachable m0 y) →
  daughters rec d ds st = (o, st') →
  ∀ y, visited st'.1 y → reachable m0 y.
Proof.
  intros Hev Hrec. revert st.
  induction ds as [|x ds IH]; intros st Hds He Hsound; simpl.
  - by intros [= _ <-].
  - assert (is_Some (m0 !! x) → reachable m0 x) as Hx0
      by (apply Hds; by left).
    destruct (rec x st) as [[|e] s1] eqn:Hx.
    + apply IH.
      * intros x' Hx'. apply Hds. by right.
      * eapply evolves_trans; [exact He|].
        eapply evolves_trans; [by eapply Hev|apply assign_depth_evolves].
      * intros y [[-> Hreg]|Hy]%assign_depth_visited_inv.
        -- apply Hx0.
           apply (evolves_is_Some _ _ x
                    (evolves_trans _ _ _ He (Hev _ _ _ _ Hx))). done.
        -- by eapply Hrec.
    + intros [= _ <-]. by eapply Hrec.
Qed.

Lemma _update_depths_reached frames m0 k d st o st' :
  _update_depths frames k d st = (o, st') →
  evolves m0 st.1 → (∀ y, visited st.1 y → reachable m0 y) →
  (is_Some (m0 !! k) → reachable m0 k) →
  ∀ y, visited st'.1 y → reachable m0 y.
Proof.
  revert k d st o st'.
  induction frames as [|frames IH]; intros k d st o st'; [by intros [= _ <-]|].
  simpl. destruct (st.1 !! k) as [m|] eqn:Hk; [|by intros [= _ <-]].
  destruct (depth m) as [|[j|]] eqn:Hd;
    [by intros [= _ <-]|by intros [= _ <-]|].
  intros Hds He Hsound Hreach.
  assert (is_Some (m0 !! k)) as [z0 Hz0]
    by (apply (evolves_is_Some _ _ k He); eauto).
  eapply (daughters_reached m0 (λ x s, _update_depths frames x (S d) s));
    [| | | | |exact Hds].
  - intros x s o' s'. apply _update_depths_evolves.
  - intros x s o' s'. apply IH.
  - intros x Hx Hreg. apply (reach_link m0 k z0 x); [eauto|done| |done].
    by rewrite <- (evolves_links _ _ _ _ _ He Hz0 Hk).
  - simpl. eapply evolves_trans; [exact He|by apply evolves_set_depth].
  - simpl. intros y (z & n & Hy & Hz). destruct (decide (y = k)) as [->|Hne].
    + eauto.
    + rewrite lookup_insert_ne in Hy by done. apply Hsound. by exists z, n.
Qed.

Lemma reachable_same_graph m m' k :
  (∀ j, match m !! j, m' !! j with
        | Some z, Some z' => same_graph z z'
        | None, None => True
        | _, _ => False
        end) →
  reachable m k → reachable m' k.
Proof.
  intros Hsame. induction 1 as [Hr|a z b _ IH Ha Hb Hreg].
  - apply reach_root. pose proof (Hsame root_zid) as Hj.
    destruct Hr as [z Hz]. rewrite Hz in Hj.
    destruct (m' !! root_zid); [eauto|done].
  - pose proof (Hsame a) as Hj. rewrite Ha in Hj.
    destruct (m' !! a) as [z'|] eqn:Ha'; [|done]. destruct Hj as [_ Hl].
    apply (reach_link m' a z' b); [done|done|by rewrite <- Hl|].
    pose proof (Hsame b) as Hjb. destruct Hreg as [zb Hzb]. rewrite Hzb in Hjb.
    destruct (m' !! b); [eauto|done].
Qed.

(** X14. On a collection whose notes all have their depth bound to [None],
    [finalize] keeps every note, and a note the root does not reach through
    links between registered notes keeps [None], however the call ends.
    When the stack has room for one nested call for each note, [finalize]
    returns and every note the root reaches has a number as depth; so then
    a note has a number exactly when the root reaches it. *)
Theorem finalize_depth_iff_reachable limit zk :
  fresh (zid2zettel zk) →
  ∃ o zk' log,
    finalize limit zk = (o, zk', log)
    ∧ (∀ k z, zid2zettel zk !! k = Some z →
         ∃ z', zid2zettel zk' !! k = Some z'
               ∧ (¬ reachable (zid2zettel zk) k → depth z' = Bound None)
               ∧ (size (zid2zettel zk) ≤ limit →
                  reachable (zid2zettel zk) k →
                  ∃ d, depth z' = Bound (Some d)))
    ∧ (size (zid2zettel zk) ≤ limit → o = Returned).
Proof.
  intros Hfresh. destruct (finalize limit zk) as [[o zk'] log] eqn:Hf.
  exists o, zk', log. split; [done|].
  pose proof (finalize_inv _ _ _ _ _ Hf) as (_ & He & _).
  assert (∀ j, match (_update_backlinks zk).1 !! j, zid2zettel zk !! j with
               | Some z, Some z' => same_graph z z'
               | None, None => True
               | _, _ => False
               end) as Hsame.
  { intros j. rewrite _update_backlinks_lookup.
    by destruct (zid2zettel zk !! j). }
  assert (∀ y, visited (zid2zettel zk') y → reachable (zid2zettel zk) y)
    as Hsound.
  { intros y Hy. apply (reachable_same_graph _ _ _ Hsame).
    pose proof Hf as Hf'. unfold finalize in Hf'.
    destruct (_update_depths _ _ _ _) as [o' [m l]] eqn:Hd.
    assert (zid2zettel zk' = m) as Hm
      by (destruct o'; by injection Hf' as _ <- _).
    rewrite Hm in Hy.
    eapply _update_depths_reached; [exact Hd|apply evolves_refl| | |exact Hy].
    - intros x (z & n & Hx & Hn). exfalso.
      rewrite _update_backlinks_lookup in Hx.
      destruct (zid2zettel zk !! x) as [z0|] eqn:Hz0; [|done].
      injection Hx as <-. simpl in Hn. by rewrite (Hfresh _ _ Hz0) in Hn.
    - intros Hreg. by apply reach_root. }
  split.
  - intros k z Hz.
    destruct (finalize_lookup_inv _ _ _ _ _ _ _ Hf Hz) as (z' & Hk & _).
    exists z'. split_and!; [done| |].
    + intros Hnot. specialize (He k).
      rewrite Hk, _update_backlinks_lookup, Hz in He. simpl in He.
      destruct He as [_ [He|[d He]]].
      * rewrite He. simpl. by apply (Hfresh k).
      * destruct Hnot. apply Hsound. by exists z', d.
    + intros Hroom Hreach.
      destruct (finalize_reaches limit zk Hfresh Hroom) as (zk1 & log1 & Hf1 & Hr).
      rewrite Hf in Hf1. injection Hf1 as _ <- _.
      destruct (Hr k Hreach) as (z1 & d & Hz1 & Hd). exists d. congruence.
  - intros Hroom.
    destruct (finalize_reaches limit zk Hfresh Hroom) as (zk1 & log1 & Hf1 & _).
    rewrite Hf in Hf1. by injection Hf1 as -> _ _.
Qed.

Lemma preset_fresh zs : fresh (zid2zettel (new_Zettelkasten (preset <$> zs))).
Proof.
  intros k z Hz%new_Zettelkasten_elem.
  by apply list_elem_of_fmap in Hz as (z0 & -> & _).
Qed.

Lemma finalize_depth_iff_reachable_witness :
  let zk := new_Zettelkasten (preset <$> two_cycle) in
  fresh (zid2zettel zk) ∧ size (zid2zettel zk) ≤ 2
  ∧ reachable (zid2zettel zk) other_zid
  ∧ (finalize 2 zk).1.1 = Returned
  ∧ ∃ z' d, zid2zettel (finalize 2 zk).1.2 !! other_zid = Some z'
            ∧ depth z' = Bound (Some d).
Proof.
  intros zk.
  assert (size (zid2zettel zk) ≤ 2) as Hroom by (by vm_compute).
  assert (reachable (zid2zettel zk) other_zid) as Hreach.
  { apply (reach_link _ root_zid (preset (note root_zid ("see " +:+ other_zid)))).
    - apply reach_root. eexists. by vm_compute.
    - by vm_compute.
    - apply (bool_decide_unpack _). by vm_compute.
    - eexists. by vm_compute. }
  split; [apply preset_fresh|]. split; [exact Hroom|]. split; [exact Hreach|].
  destruct (finalize_depth_iff_reachable 2 zk (preset_fresh two_cycle))
    as (o & zk' & log & Hf & Hnotes & Ho).
  rewrite Hf. split; [exact (Ho Hroom)|].
  destruct (Hnotes other_zid (preset (note other_zid ("back to " +:+ root_zid))))
    as (z' & Hk & _ & Hnum); [by vm_compute|].
  destruct (Hnum Hroom Hreach) as [d Hd]. by exists z', d.
Defined.

Lemma evolves_unlinked r m m' : evolves m m' → unlinked r m → unlinked r m'.
Proof.
  intros He Hu k z' Hk. pose proof (He k) as Hek. rewrite Hk in Hek.
  destruct (m !! k) as [z|] eqn:Hz; [|done].
  apply deepened_same_graph in Hek as [_ Hl]. rewrite <- Hl. by eapply Hu.
Qed.

Lemma assign_depth_other r x d st :
  x ≠ r → (assign_depth x d st).1 !! r = st.1 !! r.
Proof.
  intros Hne. unfold assign_depth. destruct (st.1 !! x); [|done].
  simpl. by rewrite lookup_insert_ne.
Qed.

Lemma daughters_untouched r (rec : string → store → outcome * store)
    d ds st o st' :
  (∀ x s o' s', rec x s = (o', s') → evolves s.1 s'.1) →
  (∀ x s o' s', rec x s = (o', s') → x ≠ r → unlinked r s.1 →
                s'.1 !! r = s.1 !! r) →
  (∀ x, x ∈ ds → x ≠ r) → unlinked r st.1 →
  daughters rec d ds st = (o, st') → st'.1 !! r = st.1 !! r.
Proof.
  intros Hev Hrec. revert st. induction ds as [|x ds IH]; intros st Hds Hu; simpl.
  - by intros [= _ <-].
  - assert (x ≠ r) as Hx by (apply Hds; by left).
    destruct (rec x st) as [[|e] s1] eqn:Hrx.
    + intros Hd. rewrite (IH _ (λ y Hy, Hds y (list_elem_of_further _ _ _ Hy))
                             ltac:(eapply evolves_unlinked;
                                   [apply assign_depth_evolves|];
                                   eapply evolves_unlinked; [by eapply Hev|done])
                             Hd).
      rewrite assign_depth_other by done. by eapply Hrec.
    + intros [= _ <-]. by eapply Hrec.
Qed.

Lemma _update_depths_untouched frames r k d st o st' :
  _update_depths frames k d st = (o, st') → k ≠ r → unlinked r st.1 →
  st'.1 !! r = st.1 !! r.
Proof.
  revert k d st o st'.
  induction frames as [|frames IH]; intros k d st o st'; [by intros [= _ <-]|].
  simpl. destruct (st.1 !! k) as [m|] eqn:Hk; [|by intros [= _ <-]].
  destruct (depth m) as [|[j|]] eqn:Hd;
    [by intros [= _ <-]|by intros [= _ <-]|].
  intros Hds Hne Hu.
  eapply daughters_untouched in Hds; [| | | |].
  - rewrite Hds. simpl. by rewrite lookup_insert_ne.
  - intros x s o' s'. apply _update_depths_evolves.
  - intros x s o' s'. apply IH.
  - intros x Hx ->. by apply (Hu k m).
  - simpl. eapply evolves_unlinked; [by apply evolves_set_depth|done].
Qed.

(** X15. When the root is registered with its depth bound to [None] and no
    registered note links to it, the root has depth 0 after [finalize],
    whichever way the call ends. *)
Theorem finalize_root_depth_zero limit zk z :
  zid2zettel zk !! root_zid = Some z → depth z = Bound None →
  unlinked root_zid (zid2zettel zk) →
  ∃ o zk' log z',
    finalize limit zk = (o, zk', log)
    ∧ zid2zettel zk' !! root_zid = Some z' ∧ depth z' = Bound (Some 0).
Proof.
  intros Hz Hd Hu. destruct (finalize limit zk) as [[o zk'] log] eqn:Hf.
  exists o, zk', log. unfold finalize in Hf.
  pose proof (_update_backlinks_lookup zk root_zid) as Hl. rewrite Hz in Hl.
  assert (unlinked root_zid (_update_backlinks zk).1) as Hu'.
  { intros k t. rewrite _update_backlinks_lookup.
    destruct (zid2zettel zk !! k) as [t0|] eqn:Ht0; [|done].
    intros [= <-]. simpl. by eapply Hu. }
  destruct (_update_depths _ _ _ _) as [o' [m l]] eqn:Hdp.
  assert (zid2zettel zk' = m) as -> by (destruct o'; by injection Hf as _ <- _).
  simpl in Hdp. rewrite Hl in Hdp. simpl in Hdp. rewrite Hd in Hdp.
  eapply daughters_untouched with (r := root_zid) in Hdp.
  - simpl in Hdp. rewrite lookup_insert_eq in Hdp.
    eexists. split_and!; [done|exact Hdp|done].
  - intros x s o'' s'. apply _update_depths_evolves.
  - intros x s o'' s'. apply _update_depths_untouched.
  - intros x Hx ->. by apply (Hu root_zid z).
  - simpl. eapply evolves_unlinked; [|exact Hu']. by apply evolves_set_depth.
Qed.

Lemma finalize_root_depth_zero_witness :
  unlinked root_zid (zid2zettel (new_Zettelkasten (preset <$> dangling_root)))
  ∧ ∃ o zk' log z',
      finalize 0 (new_Zettelkasten (preset <$> dangling_root)) = (o, zk', log)
      ∧ zid2zettel zk' !! root_zid = Some z' ∧ depth z' = Bound (Some 0).
Proof.
  assert (unlinked root_zid
            (zid2zettel (new_Zettelkasten (preset <$> dangling_root)))) as H.
  { intros k z Hz%new_Zettelkasten_elem. revert z Hz.
    apply (Forall_forall (λ z, root_zid ∉ links z)).
    unfold dangling_root. rewrite fmap_cons, fmap_nil.
    apply Forall_cons. split; [|constructor].
    apply (bool_decide_unpack _). by vm_compute. }
  split; [exact H|].
  apply (finalize_root_depth_zero 0
           (new_Zettelkasten (preset <$> dangling_root))
           (preset (note root_zid ("see " +:+ missing_zid))));
    [reflexivity|reflexivity|exact H].
Defined.

(** ** The pipeline on plain lines *)

Section plain_lines.

Variable zk : Zettelkasten.
Variable tag_transformer : gset string → gset string.
Variable _read_tags : string → gset string.
Variable autogen_link_sub : string → string.
Variable id_link_findall : string → list string.
Variable note_id_findall : string → list string.
Variable rel_path : string → string → string.
Variable note : Zettel.

(** The tag insertion after a title never fires: the note has tags, or the
    hook maps the empty set to itself. *)
Hypothesis no_insertion : tags note ≠ ∅ ∨ tag_transformer ∅ = ∅.

Abbreviation run_line :=
  (transform_line zk tag_transformer _read_tags autogen_link_sub
     id_link_findall note_id_findall rel_path note).
Abbreviation run_lines :=
  (transform_lines zk tag_transformer _read_tags autogen_link_sub
     id_link_findall note_id_findall rel_path note).
Abbreviation run :=
  (transform zk tag_transformer _read_tags autogen_link_sub
     id_link_findall note_id_findall rel_path note).
Abbreviation emit :=
  (λ out l, add_backlinks_section zk rel_path note l (out ++ [text l])).

Lemma alter_set_text_same (lines : list MarkdownLine) (i : nat) l :
  lines !! i = Some l → alter (set_text (text l)) i lines = lines.
Proof.
  intros Hl. apply list_eq. intros j. destruct (decide (i = j)) as [<-|Hne].
  - rewrite list_lookup_alter_eq, Hl. by destruct l.
  - by rewrite list_lookup_alter_ne.
Qed.

Lemma transform_line_plain i lines out l :
  lines !! i = Some l → plain autogen_link_sub id_link_findall l →
  run_line i {| md_lines := lines; out_lines := out |}
  = Ok {| md_lines := lines; out_lines := emit out l |}.
Proof using no_insertion.
  intros Hl (Htag & Heq & Hdash & Hsub & Hlinks & Hsec).
  assert (∀ a b c, bool_decide (tags note = ∅) && a && b && c
                   && negb (bool_decide (tag_transformer ∅ = ∅)) = false)
    as Hidle.
  { intros a b c. destruct no_insertion as [H|H].
    - by rewrite (bool_decide_eq_false_2 _ H).
    - by rewrite (bool_decide_eq_true_2 _ H), !andb_false_r. }
  unfold transform_line, underlines. cbn [md_lines out_lines]. rewrite Hl.
  cbv zeta. rewrite Htag, andb_false_r, Heq, !andb_false_r. cbn [andb].
  rewrite Hdash, !andb_false_r. cbn [andb]. rewrite Hidle.
  rewrite Htag. cbn [andb]. rewrite Hsub, Hlinks. cbn [add_new_links].
  rewrite Hsec. by rewrite alter_set_text_same.
Qed.

Lemma transform_lines_plain lines k i out :
  Forall (plain autogen_link_sub id_link_findall) lines →
  i + k = length lines →
  run_lines (seq i k) {| md_lines := lines; out_lines := out |}
  = Ok {| md_lines := lines; out_lines := foldl emit out (drop i lines) |}.
Proof using no_insertion.
  intros Hplain. revert i out. induction k as [|k IH]; intros i out Hlen.
  - simpl. by rewrite drop_ge by lia.
  - destruct (lookup_lt_is_Some_2 lines i) as [l Hl]; [lia|].
    cbn [seq transform_lines].
    rewrite (transform_line_plain i lines out l Hl)
      by (rewrite Forall_forall in Hplain; apply Hplain;
          by eapply list_elem_of_lookup_2).
    rewrite IH by lia. by rewrite (drop_S _ _ _ Hl).
Qed.

Lemma foldl_emit_append out ls :
  (∀ l, l ∈ ls → is_last_line l = false ∨ get_backlinks zk (zid note) = ∅) →
  foldl emit out ls = out ++ (text <$> ls).
Proof.
  revert out. induction ls as [|l ls IH]; intros out Hls; cbn [foldl].
  - by rewrite app_nil_r.
  - rewrite IH by (intros l' Hl'; apply Hls; by right).
    rewrite fmap_cons. unfold add_backlinks_section.
    destruct (Hls l ltac:(by left)) as [-> | Hnone].
    + by rewrite <- app_assoc.
    + rewrite (bool_decide_eq_true_2 _ Hnone).
      destruct (is_last_line l); by rewrite <- app_assoc.
Qed.

(** X16. A file of plain lines, for a note without backlinks and with no
    tag line to insert, comes out of [transform] as it went in. *)
Theorem transform_plain_unchanged lines :
  Forall (plain autogen_link_sub id_link_findall) lines →
  get_backlinks zk (zid note) = ∅ →
  run lines = Ok (Py.join EmptyString (text <$> lines)).
Proof using no_insertion.
  intros Hplain Hnone. unfold transform.
  rewrite (transform_lines_plain lines (length lines) 0 []) by done.
  cbn [out_lines]. rewrite drop_0, foldl_emit_append; [done|].
  intros l _. by right.
Qed.

(** X17. A file of plain lines whose final line, the only one marked as
    last, ends with a line end and is not blank, for a note with backlinks
    and with no tag line to insert: the text comes out followed by a blank
    line, the Backlinks heading, a blank line and one bullet for each
    backlink, in sorted order. *)
Theorem transform_plain_appends_backlinks init final :
  Forall (plain autogen_link_sub id_link_findall) (init ++ [final]) →
  Forall (λ l, is_last_line l = false) init →
  is_last_line final = true →
  Py.endswith_nl (text final) = true → text final ≠ Py.nl →
  get_backlinks zk (zid note) ≠ ∅ →
  run (init ++ [final])
  = Ok (Py.join EmptyString
          ((text <$> init ++ [final])
           ++ [Py.nl; "## Backlinks" +:+ Py.nl; Py.nl]
           ++ ((λ b, "* " +:+ _format_link zk rel_path note b +:+ Py.nl)
                 <$> Py.sorted (get_backlinks zk (zid note))))).
Proof using no_insertion.
  intros Hplain Hinit Hlast Hnl Hblank Hsome. unfold transform.
  rewrite (transform_lines_plain (init ++ [final]) (length (init ++ [final])) 0 [])
    by done.
  cbn [out_lines]. rewrite drop_0, foldl_app. cbn [foldl].
  rewrite foldl_emit_append
    by (intros l Hl; left; rewrite Forall_forall in Hinit; by apply Hinit).
  unfold add_backlinks_section. rewrite Hlast.
  rewrite (bool_decide_eq_false_2 _ Hsome). unfold backlinks_section.
  rewrite app_nil_l, fmap_app, last_snoc.
  rewrite (bool_decide_eq_false_2 _ Hblank), Hnl.
  do 2 f_equal. cbn [fmap list_fmap]. by rewrite <- !app_assoc.
Qed.

End plain_lines.

Lemma transform_plain_unchanged_witness :
  let lines := markdown_reader ("a" +:+ Py.nl +:+ "b" +:+ Py.nl) in
  Forall (plain strip_autogen bare_links) lines
  ∧ transform (new_Zettelkasten []) id read_tags strip_autogen bare_links
      id_findall same_directory (note other_zid "a") lines
    = Ok ("a" +:+ Py.nl +:+ "b" +:+ Py.nl).
Proof.
  assert (Forall (plain strip_autogen bare_links)
            (markdown_reader ("a" +:+ Py.nl +:+ "b" +:+ Py.nl))) as H.
  { repeat (apply Forall_cons; split; [by repeat split|]). constructor. }
  split; [exact H|].
  exact (transform_plain_unchanged (new_Zettelkasten []) id read_tags
           strip_autogen bare_links id_findall same_directory
           (note other_zid "a") (or_intror eq_refl) _ H eq_refl).
Defined.

Lemma transform_plain_appends_backlinks_witness :
  let first := {| text := "a" +:+ Py.nl; is_code_block := false;
                  current_section := []; is_last_line := false |} in
  let final := {| text := "b" +:+ Py.nl; is_code_block := false;
                  current_section := []; is_last_line := true |} in
  Forall (plain strip_autogen bare_links) ([first] ++ [final])
  ∧ transform linked_pair id read_tags strip_autogen bare_links id_findall
      same_directory (note other_zid "a") ([first] ++ [final])
    = Ok (Py.join EmptyString
            ((text <$> [first] ++ [final])
             ++ [Py.nl; "## Backlinks" +:+ Py.nl; Py.nl]
             ++ ((λ b, "* " +:+ _format_link linked_pair same_directory
                                  (note other_zid "a") b +:+ Py.nl)
                   <$> Py.sorted (get_backlinks linked_pair
                                    (zid (note other_zid "a")))))).
Proof.
  intros first final.
  assert (Forall (plain strip_autogen bare_links) ([first] ++ [final])) as H.
  { repeat (apply Forall_cons; split; [by repeat split|]). constructor. }
  split; [exact H|].
  apply (transform_plain_appends_backlinks linked_pair id read_tags
           strip_autogen bare_links id_findall same_directory
           (note other_zid "a") (or_intror eq_refl) [first] final H).
  - by repeat constructor.
  - reflexivity.
  - reflexivity.
  - discriminate.
  - intros Hn. apply (f_equal elements) in Hn. vm_compute in Hn. discriminate.
Defined.

(** ** Depths that were never bound *)

Lemma absent_kept_refl m : absent_kept m m.
Proof. intros k z Hk Hd. eauto. Qed.

Lemma absent_kept_trans m1 m2 m3 :
  absent_kept m1 m2 → absent_kept m2 m3 → absent_kept m1 m3.
Proof.
  intros H12 H23 k z Hk Hd.
  destruct (H12 k z Hk Hd) as (z2 & Hk2 & Hd2). by eapply H23.
Qed.

Lemma absent_kept_set_depth m k t d :
  m !! k = Some t → depth t ≠ Absent →
  absent_kept m (<[k := set_depth d t]> m).
Proof.
  intros Hk Ht j z Hj Hd. exists z. split; [|done].
  rewrite lookup_insert_ne; [done|]. intros ->. congruence.
Qed.

Lemma daughters_raises (rec : string → store → outcome * store)
    d ds st e st' :
  (∀ x s e' s', rec x s = (Raised e', s') →
                e' = AttributeError ∨ e' = RecursionError) →
  daughters rec d ds st = (Raised e, st') →
  e = AttributeError ∨ e = RecursionError.
Proof.
  intros Hrec. revert st. induction ds as [|x ds IH]; intros st; simpl; [done|].
  destruct (rec x st) as [[|e'] s1] eqn:Hx; [apply IH|].
  intros [= <- _]. by eapply Hrec.
Qed.

Lemma _update_depths_raises frames k d st e st' :
  _update_depths frames k d st = (Raised e, st') →
  e = AttributeError ∨ e = RecursionError.
Proof.
  revert k d st e st'.
  induction frames as [|frames IH]; intros k d st e st'.
  { intros [= <- _]. by right. }
  simpl. destruct (st.1 !! k) as [m|]; [|done].
  destruct (depth m) as [|[n|]]; [intros [= <- _]; by left|done|].
  apply daughters_raises. intros x s e' s'. apply IH.
Qed.

Lemma _update_depths_returned_bound frames k d st st' z' :
  _update_depths frames k d st = (Returned, st') →
  st'.1 !! k = Some z' → depth z' ≠ Absent.
Proof.
  intros H Hz'. pose proof (_update_depths_evolves _ _ _ _ _ _ H k) as He.
  rewrite Hz' in He. destruct frames as [|frames]; [done|]. simpl in H.
  destruct (st.1 !! k) as [m|]; [|done].
  destruct He as [_ [He|[n He]]]; [|congruence].
  rewrite He. by destruct (depth m).
Qed.

Lemma assign_depth_absent_kept x d st :
  (∀ t, st.1 !! x = Some t → depth t ≠ Absent) →
  absent_kept st.1 (assign_depth x d st).1.
Proof.
  intros Hx. unfold assign_depth. destruct (st.1 !! x) as [t|] eqn:Ht; simpl.
  - apply absent_kept_set_depth; [done|by apply Hx].
  - apply absent_kept_refl.
Qed.

Lemma daughters_absent_kept (rec : string → store → outcome * store)
    d ds st o st' :
  (∀ x s o' s', rec x s = (o', s') → absent_kept s.1 s'.1) →
  (∀ x s s' t, rec x s = (Returned, s') →
               s'.1 !! x = Some t → depth t ≠ Absent) →
  daughters rec d ds st = (o, st') → absent_kept st.1 st'.1.
Proof.
  intros Hkept Hbound. revert st.
  induction ds as [|x ds IH]; intros st; simpl.
  - intros [= _ <-]. apply absent_kept_refl.
  - destruct (rec x st) as [[|e] s1] eqn:Hx.
    + intros Hd. eapply absent_kept_trans; [by eapply Hkept|].
      eapply absent_kept_trans; [|by apply IH].
      apply assign_depth_absent_kept. intros t. by eapply Hbound.
    + intros [= _ <-]. by eapply Hkept.
Qed.

Lemma _update_depths_absent_kept frames k d st o st' :
  _update_depths frames k d st = (o, st') → absent_kept st.1 st'.1.
Proof.
  revert k d st o st'.
  induction frames as [|frames IH]; intros k d st o st'.
  { intros [= _ <-]. apply absent_kept_refl. }
  simpl. destruct (st.1 !! k) as [m|] eqn:Hk.
  - destruct (depth m) as [|[n|]] eqn:Hd.
    + intros [= _ <-]. apply absent_kept_refl.
    + intros [= _ <-]. apply absent_kept_refl.
    + intros Hds.
      eapply absent_kept_trans;
        [apply (absent_kept_set_depth _ k m d); [done|congruence]|].
      eapply daughters_absent_kept in Hds; [exact Hds| |].
      * intros x s o' s'. apply IH.
      * intros x s s' t. apply _update_depths_returned_bound.
  - intros [= _ <-]. apply absent_kept_refl.
Qed.

Lemma finalize_absent_kept limit zk o zk' log :
  finalize limit zk = (o, zk', log) →
  absent_kept (zid2zettel zk) (zid2zettel zk').
Proof.
  unfold finalize.
  destruct (_update_depths _ _ _ _) as [o' [m l]] eqn:Hd.
  intros Hf. assert (zid2zettel zk' = m) as ->
    by (destruct o'; by injection Hf as _ <- _).
  apply _update_depths_absent_kept in Hd. simpl in Hd.
  intros k z Hk Hz. apply Hd with (z := set_backlinks
    (sources k (zettels (zid2zettel zk) (zid_order zk))) z); [|done].
  by rewrite _update_backlinks_lookup, Hk.
Qed.

(** The only exceptions of [finalize] are the read of a depth that was never
    assigned and the refusal of a call for which the stack has no room. *)
Lemma finalize_raises limit zk e zk' log :
  finalize limit zk = (Raised e, zk', log) →
  e = AttributeError ∨ e = RecursionError.
Proof.
  unfold finalize.
  destruct (_update_depths _ _ _ _) as [[|e'] [m l]] eqn:Hd; [done|].
  intros [= <- _ _]. by eapply _update_depths_raises.
Qed.

(** ** dot_graph *)

Lemma continues_refl g : continues g g.
Proof. by split. Qed.

Lemma continues_trans g1 g2 g3 :
  continues g1 g2 → continues g2 g3 → continues g1 g3.
Proof. intros [? ?] [? ?]. split; by etrans. Qed.

Lemma elem_of_drop_prefix {A} n (l l' : list A) x :
  l `prefix_of` l' → x ∈ drop n l → x ∈ drop n l'.
Proof.
  intros [k ->] Hx. rewrite drop_app. apply elem_of_app. by left.
Qed.

Lemma elem_of_drop_snoc {A} n (l : list A) x :
  n ≤ length l → x ∈ drop n (l ++ [x]).
Proof.
  intros Hn. rewrite drop_app. apply elem_of_app. right.
  replace (n - length l) with 0 by lia. by left.
Qed.

Lemma shown_mono body body' a b zb :
  (∀ x, x ∈ body → x ∈ body') → shown body a b zb → shown body' a b zb.
Proof. unfold shown. intros H. case_bool_decide; naive_solver. Qed.

Lemma draw_link_spec m n z g link :
  m !! zid z = Some z → link ∈ links z →
  n ≤ length (lines g) → drawn_in m n g →
  let g' := draw_link m z g link in
  continues g g' ∧ drawn_in m n g'
  ∧ (is_Some (m !! link) → (zid z, link) ∈ drawn_links g')
  ∧ logged g'
    = logged g ++ (if m !! link is None then [didnt_find link] else []).
Proof.
  intros Hz Hlink Hn Hin. unfold draw_link.
  destruct (m !! link) as [target|] eqn:Ht; cbn zeta.
  - case_bool_decide as Hdrawn.
    { split_and!; [apply continues_refl|done|done|by rewrite app_nil_r]. }
    case_bool_decide as Hback; cbn [lines drawn_links logged].
    + split_and!; [split|..].
      * by apply prefix_app_r.
      * intros x ?. apply elem_of_app. by left.
      * intros a b zb [Hab|Hab%list_elem_of_singleton]%elem_of_app Hb.
        -- eapply shown_mono; [|by eapply Hin].
           intros x. apply elem_of_drop_prefix. by apply prefix_app_r.
        -- injection Hab as -> ->. assert (zb = target) as -> by congruence.
           unfold shown. rewrite bool_decide_eq_false_2 by done.
           by apply elem_of_drop_snoc.
      * intros _. apply elem_of_app. right. by left.
      * by rewrite app_nil_r.
    + split_and!; [split|..].
      * by apply prefix_app_r.
      * intros x ?. apply elem_of_app. by left.
      * intros a b zb [Hab|Hab]%elem_of_app Hb.
        -- eapply shown_mono; [|by eapply Hin].
           intros x. apply elem_of_drop_prefix. by apply prefix_app_r.
        -- unfold shown.
           apply elem_of_cons in Hab as [Hab|Hab%list_elem_of_singleton];
             injection Hab as -> ->.
           ++ assert (zb = target) as -> by congruence.
              rewrite bool_decide_eq_true_2 by done.
              left. by apply elem_of_drop_snoc.
           ++ assert (zb = z) as -> by congruence.
              rewrite bool_decide_eq_true_2 by done.
              right. by apply elem_of_drop_snoc.
      * intros _. apply elem_of_app. right. by left.
      * by rewrite app_nil_r.
  - split_and!; [by split|done|by intros [??]|done].
Qed.

Lemma draw_links_spec m n z ls g :
  m !! zid z = Some z → (∀ l, l ∈ ls → l ∈ links z) →
  n ≤ length (lines g) → drawn_in m n g →
  let g' := foldl (draw_link m z) g ls in
  continues g g' ∧ drawn_in m n g'
  ∧ (∀ l, l ∈ ls → is_Some (m !! l) → (zid z, l) ∈ drawn_links g')
  ∧ logged g' = logged g ++ (didnt_find <$> filter (λ l, m !! l = None) ls).
Proof.
  intros Hz. revert g. induction ls as [|l ls IH]; intros g Hls Hn Hin; cbn [foldl].
  - split_and!; [apply continues_refl|done|by intros ? ?%elem_of_nil|].
    by rewrite app_nil_r.
  - destruct (draw_link_spec m n z g l Hz (Hls l ltac:(by left)) Hn Hin)
      as (Hc & Hin1 & Hdrawn & Hlog).
    destruct (IH (draw_link m z g l)) as (Hc' & Hin' & Hdrawn' & Hlog').
    { intros l' Hl'. apply Hls. by right. }
    { destruct Hc as [Hp%prefix_length _]. lia. }
    { done. }
    split_and!.
    + by eapply continues_trans.
    + done.
    + intros l' [->|Hl']%elem_of_cons Hsome.
      * destruct Hc' as [_ Hsub]. apply Hsub. by apply Hdrawn.
      * by apply Hdrawn'.
    + rewrite Hlog', Hlog, <- app_assoc. f_equal. rewrite filter_cons.
      destruct (m !! l); by case_decide.
Qed.

Section dot_graph_facts.

Variable resolve : string → string.
Variable pick : Zettel → string.

Lemma draw_zettels_raises m zs g :
  (∃ z, z ∈ zs ∧ depth z = Absent) →
  ∃ g', draw_zettels resolve pick m zs g = (Raised AttributeError, g').
Proof.
  revert g. induction zs as [|z zs IH]; intros g (z0 & Hz0 & Hd).
  - by apply elem_of_nil in Hz0.
  - simpl. destruct (depth z) as [|d] eqn:Hz; [by eexists|].
    apply IH. exists z0. split; [|done].
    apply elem_of_cons in Hz0 as [->|?]; [congruence|done].
Qed.

Lemma draw_zettels_spec m n zs g :
  (∀ z, z ∈ zs → m !! zid z = Some z ∧ depth z ≠ Absent) →
  n ≤ length (lines g) → drawn_in m n g →
  ∃ g', draw_zettels resolve pick m zs g = (Returned, g')
        ∧ continues g g' ∧ drawn_in m n g'
        ∧ (∀ z, z ∈ zs →
             ∃ d, depth z = Bound d
                  ∧ node_line resolve pick z d ∈ drop n (lines g'))
        ∧ (∀ z l, z ∈ zs → l ∈ links z → is_Some (m !! l) →
                  (zid z, l) ∈ drawn_links g')
        ∧ logged g' = logged g ++ (zs ≫= missing m).
Proof.
  revert g. induction zs as [|z zs IH]; intros g Hzs Hn Hin.
  - exists g. split_and!; [done|apply continues_refl|done| | |].
    + by intros ? ?%elem_of_nil.
    + by intros ? ? ?%elem_of_nil.
    + by rewrite app_nil_r.
  - destruct (Hzs z ltac:(by left)) as [Hz Hd]. cbn [draw_zettels].
    destruct (depth z) as [|d] eqn:Hdz; [done|].
    set (g0 := {| lines := lines g ++ [node_line resolve pick z d];
                  drawn_links := drawn_links g; logged := logged g |}).
    assert (continues g g0) as Hc0 by (split; [by apply prefix_app_r|done]).
    assert (drawn_in m n g0) as Hin0.
    { intros a b zb Hab Hb. eapply shown_mono; [|by eapply Hin].
      intros x. apply elem_of_drop_prefix. by apply prefix_app_r. }
    assert (n ≤ length (lines g0)) as Hn0
      by (unfold g0; cbn [lines]; rewrite length_app; lia).
    destruct (draw_links_spec m n z (links z) g0 Hz ltac:(done) Hn0 Hin0)
      as (Hc1 & Hin1 & Hdrawn1 & Hlog1).
    destruct (IH (foldl (draw_link m z) g0 (links z)))
      as (g' & Hrun & Hc' & Hin' & Hnodes & Hdrawn & Hlog).
    { intros z' Hz'. apply Hzs. by right. }
    { destruct Hc1 as [Hp%prefix_length _]. lia. }
    { done. }
    exists g'. split_and!.
    + done.
    + eapply continues_trans; [exact Hc0|]. by eapply continues_trans.
    + done.
    + intros z' [->|Hz']%elem_of_cons; [|by apply Hnodes].
      exists d. split; [done|].
      eapply elem_of_drop_prefix; [|by apply (elem_of_drop_snoc n (lines g))].
      destruct Hc1 as [Hp1 _], Hc' as [Hp' _]. by etrans.
    + intros z' l [->|Hz']%elem_of_cons Hl Hsome; [|by eapply Hdrawn].
      destruct Hc' as [_ Hsub]. apply Hsub. by apply Hdrawn1.
    + rewrite Hlog, Hlog1, bind_cons, <- app_assoc. done.
Qed.

Lemma finalize_all_bound limit zk o zk' log :
  finalize limit zk = (o, zk', log) →
  all_bound (zid2zettel zk) → all_bound (zid2zettel zk').
Proof.
  intros (_ & He & _)%finalize_inv Hb.
  eapply evolves_all_bound; [exact He|].
  intros k z. rewrite _update_backlinks_lookup.
  destruct (zid2zettel zk !! k) as [z0|] eqn:Hk; [|done].
  intros [= <-]. simpl. by eapply Hb.
Qed.

Lemma zettels_registered zk z :
  wf zk → z ∈ zettels (zid2zettel zk) (zid_order zk) ↔
          zid2zettel zk !! zid z = Some z.
Proof.
  intros (_ & Hdom & Hzid). rewrite elem_of_zettels. split.
  - intros (k & _ & Hk). by rewrite (Hzid k z Hk).
  - intros Hz. exists (zid z). split; [|done]. apply Hdom. eauto.
Qed.

(** X18. [dot_graph] never returns a text when some registered note never
    had its depth bound: it is left by [AttributeError], or by
    [RecursionError] when the depth pass runs out of stack first. It is
    [AttributeError] whenever the stack has room for one nested call for
    each note whose depth is [None]; notes that were only constructed and
    registered have no such depth, so for them it is [AttributeError]
    whatever the room. *)
Theorem dot_graph_needs_depths limit zk :
  wf zk →
  (∃ k z, zid2zettel zk !! k = Some z ∧ depth z = Absent) →
  ∃ e zk' log,
    dot_graph resolve pick limit zk = (Raise e, zk', log)
    ∧ (e = AttributeError ∨ e = RecursionError)
    ∧ (size (pending (zid2zettel zk)) ≤ limit → e = AttributeError).
Proof.
  intros Hwf (k & z & Hk & Hd). unfold dot_graph.
  assert (∀ zk' log,
    wf zk' → (∃ z', zid2zettel zk' !! k = Some z' ∧ depth z' = Absent) →
    ∃ zk'' log',
      match draw_zettels resolve pick (zid2zettel zk')
              (zettels (zid2zettel zk') (zid_order zk'))
              {| lines := ["digraph zettelkasten {"; tab +:+ "node [shape=box];"];
                 drawn_links := []; logged := log |} with
      | (Raised e, g) => (Raise e, zk', logged g)
      | (Returned, g) =>
          (Ok (Py.join Py.nl (lines g ++ ["}"])), zk', logged g)
      end = (Raise AttributeError, zk'', log')) as Hdraw.
  { intros zk' log Hwf' (z' & Hk' & Hd').
    edestruct (draw_zettels_raises (zid2zettel zk')
                 (zettels (zid2zettel zk') (zid_order zk'))) as [g' ->];
      [|by eauto].
    exists z'. split; [|done]. apply zettels_registered; [done|].
    destruct Hwf' as (_ & _ & Hzid). by rewrite (Hzid k z' Hk'). }
  destruct (_finalized zk).
  - destruct (Hdraw zk [] Hwf) as (zk'' & log' & ->); [eauto|].
    exists AttributeError, zk'', log'. split_and!; [done|by left|done].
  - destruct (finalize limit zk) as [[[|e] zk'] log] eqn:Hf.
    + destruct (Hdraw zk' log) as (zk'' & log' & ->);
        [by eapply finalize_wf|by eapply finalize_absent_kept|].
      exists AttributeError, zk'', log'. split_and!; [done|by left|done].
    + exists e, zk', log. split_and!; [done|by eapply finalize_raises|].
      intros Hroom. pose proof (finalize_no_overflow _ _ _ _ _ Hroom Hf) as Hno.
      destruct (finalize_raises _ _ _ _ _ Hf) as [->| ->]; done.
Qed.

(** X19. On a collection whose notes all have their depth bound, which is
    finalized already or is finalized with room on the stack for one nested
    call for each note whose depth is [None], [dot_graph] returns. Its text
    is the header, a body and the closing brace, joined by line ends. The
    body holds the line of every registered note, and for every link
    between registered notes an arrow: one with a single head when the
    target does not link back, one with two heads in one of the two
    directions when it does. One message is logged for every occurrence of
    a link to an unregistered id, after those of [finalize]. *)
Theorem dot_graph_draws limit zk :
  wf zk → all_bound (zid2zettel zk) →
  _finalized zk = true ∨ size (pending (zid2zettel zk)) ≤ limit →
  ∃ body zk' log0 log,
    dot_graph resolve pick limit zk
    = (Ok (Py.join Py.nl (graph_header ++ body ++ ["}"])), zk', log)
    ∧ (if _finalized zk then zk' = zk ∧ log0 = []
       else finalize limit zk = (Returned, zk', log0))
    ∧ (∀ k z, zid2zettel zk' !! k = Some z →
         ∃ d, depth z = Bound d ∧ node_line resolve pick z d ∈ body)
    ∧ (∀ a za b zb,
         zid2zettel zk' !! a = Some za → zid2zettel zk' !! b = Some zb →
         b ∈ links za → shown body a b zb)
    ∧ log = log0 ++ (zettels (zid2zettel zk') (zid_order zk')
                       ≫= missing (zid2zettel zk')).
Proof.
  intros Hwf Hb Hroom.
  assert (∃ zk' log0,
    (if _finalized zk then (Returned, zk, []) else finalize limit zk)
    = (Returned, zk', log0)
    ∧ (if _finalized zk then zk' = zk ∧ log0 = []
       else finalize limit zk = (Returned, zk', log0))
    ∧ wf zk' ∧ all_bound (zid2zettel zk')) as (zk' & log0 & Hrun & Hfin & Hwf' & Hb').
  { destruct (_finalized zk).
    - by exists zk, [].
    - destruct Hroom as [?|Hroom]; [done|].
      destruct (finalize_returns limit zk Hb Hroom) as (zk' & log0 & Hf).
      exists zk', log0. split_and!; [done|done| |].
      + by eapply finalize_wf.
      + by eapply finalize_all_bound. }
  destruct (draw_zettels_spec (zid2zettel zk') 2
              (zettels (zid2zettel zk') (zid_order zk'))
              {| lines := graph_header; drawn_links := []; logged := log0 |})
    as (g' & Hdraw & [[body Hbody] _] & Hin & Hnodes & Hdrawn & Hlog).
  { intros z Hz%zettels_registered; [|done]. split; [done|]. by eapply Hb'. }
  { simpl. lia. }
  { by intros a b zb ?%elem_of_nil. }
  cbn [lines logged] in Hbody, Hlog.
  assert (drop 2 (lines g') = body) as Hdrop by (by rewrite Hbody).
  exists body, zk', log0, (logged g'). unfold dot_graph. rewrite Hrun.
  fold graph_header. rewrite Hdraw, Hbody, <- app_assoc.
  split_and!; [done|done| | |done].
  - intros k z Hk. rewrite <- Hdrop. apply Hnodes.
    apply zettels_registered; [done|].
    destruct Hwf' as (_ & _ & Hzid). by rewrite (Hzid k z Hk).
  - intros a za b zb Ha Hzb Hl. rewrite <- Hdrop. apply Hin; [|done].
    destruct Hwf' as (Hnd & Hdom & Hzid).
    rewrite <- (Hzid a za Ha). apply Hdrawn; [|done|by eauto].
    apply zettels_registered; [done|]. by rewrite (Hzid a za Ha).
Qed.

End dot_graph_facts.

Lemma preset_all_bound zs :
  all_bound (zid2zettel (new_Zettelkasten (preset <$> zs))).
Proof.
  intros k z Hz%new_Zettelkasten_elem.
  by apply list_elem_of_fmap in Hz as (z0 & -> & _).
Qed.

Lemma dot_graph_needs_depths_witness :
  let zk := new_Zettelkasten two_cycle in
  wf zk
  ∧ (∃ k z, zid2zettel zk !! k = Some z ∧ depth z = Absent)
  ∧ size (pending (zid2zettel zk)) ≤ 0
  ∧ ∃ zk' log,
      dot_graph id (constant_pick "#8dd3c7") 0 zk
      = (Raise AttributeError, zk', log).
Proof.
  intros zk.
  assert (∃ k z, zid2zettel zk !! k = Some z ∧ depth z = Absent) as H.
  { exists root_zid, (note root_zid ("see " +:+ other_zid)).
    split; [by vm_compute|reflexivity]. }
  assert (size (pending (zid2zettel zk)) ≤ 0) as Hroom by (by vm_compute).
  split; [apply new_Zettelkasten_wf|]. split; [exact H|]. split; [exact Hroom|].
  destruct (dot_graph_needs_depths id (constant_pick "#8dd3c7") 0 zk
              (new_Zettelkasten_wf two_cycle) H)
    as (e & zk' & log & Hrun & _ & He).
  exists zk', log. by rewrite <- (He Hroom).
Defined.

Lemma dot_graph_draws_witness :
  let zk := new_Zettelkasten (preset <$> two_cycle) in
  wf zk ∧ all_bound (zid2zettel zk)
  ∧ (_finalized zk = true ∨ size (pending (zid2zettel zk)) ≤ 2)
  ∧ ∃ body zk' log,
      dot_graph id (constant_pick "#8dd3c7") 2 zk
      = (Ok (Py.join Py.nl (graph_header ++ body ++ ["}"])), zk', log)
      ∧ (both root_zid other_zid ∈ body ∨ both other_zid root_zid ∈ body).
Proof.
  intros zk.
  assert (_finalized zk = true ∨ size (pending (zid2zettel zk)) ≤ 2) as Hroom
    by (right; by vm_compute).
  split; [apply new_Zettelkasten_wf|]. split; [apply preset_all_bound|].
  split; [exact Hroom|].
  destruct (dot_graph_draws id (constant_pick "#8dd3c7") 2 zk
              (new_Zettelkasten_wf _) (preset_all_bound two_cycle) Hroom)
    as (body & zk' & log0 & log & Hrun & Hfin & _ & Hedges & _).
  exists body, zk', log. split; [exact Hrun|].
  change (_finalized zk) with false in Hfin. cbv iota in Hfin.
  assert (zk' = (finalize 2 zk).1.2) as Hzk by (by rewrite Hfin).
  assert (∃ za zb, zid2zettel zk' !! root_zid = Some za
                   ∧ zid2zettel zk' !! other_zid = Some zb
                   ∧ other_zid ∈ links za ∧ root_zid ∈ links zb)
    as (za & zb & Ha & Hb & Hl & Hback).
  { rewrite Hzk. do 2 eexists.
    split; [vm_compute; reflexivity|]. split; [vm_compute; reflexivity|].
    split; apply (bool_decide_unpack _); by vm_compute. }
  pose proof (Hedges _ _ _ _ Ha Hb Hl) as Hs. unfold shown in Hs.
  by rewrite bool_decide_eq_true_2 in Hs.
Defined.

Lemma tags_of_last_tag_line_witness :
  let z := new_Zettel "n.md" ("Tags: #a #b" +:+ Py.nl) in
  "a" ∈ tags z ∧ Py.has_space "a" = false.
Proof.
  intros z.
  assert ("a" ∈ tags z) as H by (apply (bool_decide_unpack _); by vm_compute).
  split; [exact H|].
  exact (proj2 (tags_of_last_tag_line "n.md" ("Tags: #a #b" +:+ Py.nl)) "a" H).
Defined.

(** ** CategoryColorPicker *)

Lemma category2color_go_spec colors i cats acc :
  colors ≠ [] → NoDup cats →
  ∃ m, category2color_go colors i cats acc = Some m
       ∧ (∀ j c, cats !! j = Some c →
                 m !! c = colors !! ((i + j) mod length colors))
       ∧ (∀ c, c ∉ cats → m !! c = acc !! c).
Proof.
  intros Hne. revert i acc.
  induction cats as [|c cats IH]; intros i acc Hnd; cbn [category2color_go].
  - exists acc. split_and!; [done| |done]. intros j c. by rewrite lookup_nil.
  - apply NoDup_cons in Hnd as [Hc Hnd].
    destruct (lookup_lt_is_Some_2 colors (i mod length colors)) as [color Hcol].
    { apply Nat.mod_upper_bound. by destruct colors. }
    rewrite Hcol.
    destruct (IH (S i) (<[c := color]> acc) Hnd) as (m & -> & Hin & Hout).
    exists m. split_and!; [done| |].
    + intros [|j] c'; cbn [lookup list_lookup].
      * intros [= <-]. rewrite (Hout c Hc), lookup_insert_eq, Nat.add_0_r.
        done.
      * intros Hj. rewrite (Hin j c' Hj). by rewrite Nat.add_succ_r.
    + intros c' [Hne' Hc']%not_elem_of_cons.
      by rewrite (Hout c' Hc'), lookup_insert_ne.
Qed.

Lemma registered_category zk k z c :
  wf zk → zid2zettel zk !! k = Some z → c ∈ tags z →
  Py.startswith c "c_" = true → c ∈ categories zk.
Proof.
  intros (_ & Hdom & _) Hk Hc Hstart. unfold categories, zk_tags.
  apply elem_of_filter. split; [done|]. apply elem_of_foldl_tags. right.
  exists z. split; [|done]. apply elem_of_zettels. exists k. split; [|done].
  apply Hdom. eauto.
Qed.

(** X20. With a palette that is not empty, a [CategoryColorPicker] can be built
    for every collection, and its [pick] then returns for every registered
    note: [white], or a colour of the palette when the note has exactly one
    category. When the palette has no colour twice and at least as many
    colours as there are categories, notes with different single categories
    get different colours. The order in which the set of categories is
    iterated does not matter for any of this. *)
Theorem category_pick_registered zk colors cats :
  wf zk → colors ≠ Some [] → cats ≡ₚ elements (categories zk) →
  let palette := default default_colors colors in
  ∃ c2c,
    category2color colors cats = Some c2c
    ∧ (∀ k z, zid2zettel zk !! k = Some z →
         ∃ color, category_pick c2c z = Some color
                  ∧ (color = "white" ∨ color ∈ palette)
                  ∧ (∀ c, filter (λ t, Py.startswith t "c_" = true) (tags z)
                          = {[c]} → color ∈ palette))
    ∧ (NoDup palette → length cats ≤ length palette →
       ∀ k1 z1 c1 k2 z2 c2,
         zid2zettel zk !! k1 = Some z1 → zid2zettel zk !! k2 = Some z2 →
         filter (λ t, Py.startswith t "c_" = true) (tags z1) = {[c1]} →
         filter (λ t, Py.startswith t "c_" = true) (tags z2) = {[c2]} →
         c1 ≠ c2 → category_pick c2c z1 ≠ category_pick c2c z2).
Proof.
  intros Hwf Hcolors Hperm palette.
  assert (palette ≠ []) as Hne.
  { unfold palette. destruct colors as [[|]|]; try done. }
  assert (NoDup cats) as Hnd by (rewrite Hperm; apply NoDup_elements).
  destruct (category2color_go_spec palette 0 cats ∅ Hne Hnd)
    as (c2c & Hgo & Hin & _).
  exists c2c. split; [done|].
  assert (∀ k z c, zid2zettel zk !! k = Some z →
            c ∈ filter (λ t, Py.startswith t "c_" = true) (tags z) →
            ∃ j color, cats !! j = Some c ∧ j < length cats
                       ∧ c2c !! c = Some color
                       ∧ palette !! (j mod length palette) = Some color)
    as Hcat.
  { intros k z c Hk [Hstart Hc]%elem_of_filter.
    assert (c ∈ cats) as [j Hj]%list_elem_of_lookup.
    { rewrite Hperm. apply elem_of_elements.
      by eapply registered_category. }
    destruct (lookup_lt_is_Some_2 palette (j mod length palette))
      as [color Hcol].
    { apply Nat.mod_upper_bound. by destruct palette. }
    exists j, color. split_and!; [done|by eapply lookup_lt_Some| |done].
    by rewrite (Hin j c Hj). }
  split.
  - intros k z Hk. unfold category_pick.
    destruct (elements (filter _ (tags z))) as [|c [|c' l]] eqn:Hel.
    + exists "white". split_and!; [done|by left|].
      intros c Hc. rewrite Hc, elements_singleton in Hel. done.
    + destruct (Hcat k z c Hk) as (j & color & _ & _ & Hc2c & Hcol).
      { apply elem_of_elements. rewrite Hel. by left. }
      exists color. rewrite Hc2c.
      assert (color ∈ palette) by (by eapply list_elem_of_lookup_2).
      split_and!; [done|by right|done].
    + exists "white". split_and!; [done|by left|].
      intros c0 Hc. rewrite Hc, elements_singleton in Hel. done.
  - intros Hpal Hlen k1 z1 c1 k2 z2 c2 Hk1 Hk2 H1 H2 Hne12.
    unfold category_pick. rewrite H1, H2, !elements_singleton.
    destruct (Hcat k1 z1 c1 Hk1) as (j1 & col1 & Hj1 & Hlt1 & -> & Hcol1).
    { rewrite H1. by apply elem_of_singleton. }
    destruct (Hcat k2 z2 c2 Hk2) as (j2 & col2 & Hj2 & Hlt2 & -> & Hcol2).
    { rewrite H2. by apply elem_of_singleton. }
    intros [= <-]. rewrite Nat.mod_small in Hcol1, Hcol2 by lia.
    assert (j1 = j2) as -> by (by eapply NoDup_lookup).
    congruence.
Qed.

Lemma category_pick_registered_witness :
  let zk := new_Zettelkasten [note other_zid "tags: #c_a #x"] in
  wf zk ∧ (None : option (list string)) ≠ Some []
  ∧ ["c_a"] ≡ₚ elements (categories zk)
  ∧ ∃ c2c, category2color None ["c_a"] = Some c2c.
Proof.
  intros zk.
  assert (["c_a"] ≡ₚ elements (categories zk)) as H
    by (by replace (elements (categories zk)) with ["c_a"] by (by vm_compute)).
  split; [apply new_Zettelkasten_wf|]. split; [done|]. split; [exact H|].
  destruct (category_pick_registered zk None ["c_a"]
              (new_Zettelkasten_wf _) ltac:(done) H) as (c2c & Hc & _).
  by exists c2c.
Defined.
